(** * ReadCluster: clusters of overlapping reads grown over the FM-index

    A shallow embedding of [src/Algorithm/ReadCluster.cpp] (sga) and the
    properties of its three operations: [addSeed], [run] and [getOutput].

    Conventions of the embedding.
    - [int64_t] index positions are [Z]; no arithmetic is performed on them by
      the code, so no wrap-around occurs.
    - [size_t] quantities (container sizes, the bound [max]) are [nat]; the
      only arithmetic is [m_queue.size() + m_outCluster.size()], the sum of
      the sizes of two containers that live in one address space and hold
      objects larger than one byte, which stays below [2^64].
    - [std::queue], [std::vector] and [std::list] are [list]s (front of the
      queue = head of the list); [std::set<int64_t>] is [gset Z].
    - [exit] is an outcome of its own: the caller gets nothing back.
    - Text written to [std::cerr] is not modelled. *)

From stdpp Require Import gmap strings list sorting.
From Stdlib Require Import ZArith Ascii.

#[local] Set Warnings "-clear-no-such-hyp".

(** ** Index intervals *)

Record BWTInterval := mkBWTInterval { lower : Z; upper : Z }.

(** Modelled from the spec: [BWTInterval::isValid] (BWTInterval.h is not
    part of the sources at hand); "[lower > upper] denotes an empty/invalid
    interval". *)
Definition isValid (i : BWTInterval) : bool := (lower i <=? upper i)%Z.

(** Modelled from the spec: [BWTInterval::compare], the strict order used for
    sorting; "lower bound primary, upper bound secondary". *)
Definition BWTInterval_compare (a b : BWTInterval) : bool :=
  if (lower a =? lower b)%Z then (upper a <? upper b)%Z
  else (lower a <? lower b)%Z.

(** Modelled from the spec: [BWTInterval::equal]; "equal identity interval". *)
Definition BWTInterval_equal (a b : BWTInterval) : bool :=
  (lower a =? lower b)%Z && (upper a =? upper b)%Z.

(** ** Cluster nodes *)

Record ClusterNode := mkClusterNode {
  sequence : string;
  interval : BWTInterval;
  isReverseInterval : bool
}.

(** Modelled from the spec: [ClusterNode::compare] and [ClusterNode::equal]
    (ReadCluster.h is not part of the sources at hand); "nodes are ordered
    and compared solely by their identity interval". *)
Definition ClusterNode_compare (a b : ClusterNode) : bool :=
  BWTInterval_compare (interval a) (interval b).

Definition ClusterNode_equal (a b : ClusterNode) : bool :=
  BWTInterval_equal (interval a) (interval b).

(** ** The overlapper (the collaborator behind [m_pOverlapper]) *)

Record SeqRecord := mkSeqRecord { SeqRecord_id : string; SeqRecord_seq : string }.

Record OverlapResult := mkOverlapResult { isSubstring : bool }.

(** Modelled from the spec: an [OverlapBlock] as far as [run] looks at it:
    "a canonical identity interval for the neighbor, a reconstruction rule
    that, given the current node's sequence, yields the neighbor's full
    sequence, and an orientation flag". *)
Record OverlapBlock := mkOverlapBlock {
  getCanonicalInterval : BWTInterval;
  getFullString : string -> string;
  isTargetRev : bool
}.

Definition OverlapBlockList := list OverlapBlock.

(** Modelled from the spec: the calls [addSeed] and [run] make on the
    overlapper and on its BWT ([checkContainment], [identityInterval],
    [findOverlaps] of the external interface), one field per call of the
    source.  [findInterval] and [updateInterval] stand for
    [BWTAlgorithms::findInterval(getBWT(), w)] and
    [BWTAlgorithms::updateInterval(i, b, getBWT())]. *)
Record OverlapAlgorithm := mkOverlapAlgorithm {
  alignReadDuplicate : SeqRecord -> OverlapResult;
  findInterval : string -> BWTInterval;
  updateInterval : BWTInterval -> ascii -> BWTInterval;
  overlapRead : SeqRecord -> Z -> OverlapBlockList
}.

(** ** The cluster builder *)

(** The members of [class ReadCluster].  [pushLog] is a ghost field: it
    records every [m_queue.push] in order and is read by no operation. *)
Record ReadCluster := mkReadCluster {
  m_pOverlapper : OverlapAlgorithm;
  m_minOverlap : Z;
  m_usedIndex : gset Z;
  m_queue : list ClusterNode;
  m_outCluster : list ClusterNode;
  pushLog : list ClusterNode
}.

(** [ReadCluster::ReadCluster]: the containers start empty. *)
Definition ReadCluster_new (pOverlapper : OverlapAlgorithm) (minOverlap : Z)
  : ReadCluster :=
  mkReadCluster pOverlapper minOverlap ∅ [] [] [].

(** [m_usedIndex.insert(k); m_queue.push(n)] *)
Definition insert_and_push (k : Z) (n : ClusterNode) (c : ReadCluster)
  : ReadCluster :=
  mkReadCluster (m_pOverlapper c) (m_minOverlap c)
                ({[ k ]} ∪ m_usedIndex c)
                (m_queue c ++ [n])
                (m_outCluster c)
                (pushLog c ++ [n]).

(** What a call hands back: it returns, or the process is gone. *)
Inductive Outcome (A : Type) : Type :=
| Returned (a : A)
| Exited (status : Z).
Arguments Returned {A} a.
Arguments Exited {A} status.

(** [EXIT_FAILURE] of <cstdlib>. *)
Definition EXIT_FAILURE : Z := 1.

(** The node returned for a skipped seed: [ClusterNode emptyNode] with the
    interval set to [0,-1].  The source leaves [isReverseInterval]
    uninitialised; the model fixes it to [false] and nothing below depends
    on it. *)
Definition emptyNode : ClusterNode :=
  mkClusterNode ""%string (mkBWTInterval 0 (-1)) false.

(** [ReadCluster::addSeed] *)
Definition addSeed (sequence : string) (bCheckInIndex : bool) (c : ReadCluster)
  : Outcome (ClusterNode * ReadCluster) :=
  let tempRecord := mkSeqRecord "cluster-seed"%string sequence in
  let overlapResult := alignReadDuplicate (m_pOverlapper c) tempRecord in
  if isSubstring overlapResult then
    if bCheckInIndex then Exited 1
    else Returned (emptyNode, c)
  else
    let readInterval := findInterval (m_pOverlapper c) sequence in
    let readInterval := updateInterval (m_pOverlapper c) readInterval "$"%char in
    if bCheckInIndex && negb (isValid readInterval) then Exited EXIT_FAILURE
    else
      let node := mkClusterNode sequence readInterval false in
      Returned (node, insert_and_push (lower readInterval) node c).

(** The body of the [for] loop of [run] for one block of the block list. *)
Definition expandBlock (node : ClusterNode) (c : ReadCluster)
  (block : OverlapBlock) : ReadCluster :=
  let canonicalInterval := getCanonicalInterval block in
  let canonicalIndex := lower canonicalInterval in
  if decide (canonicalIndex ∈ m_usedIndex c) then c
  else
    let newNode := mkClusterNode (getFullString block (sequence node))
                                 canonicalInterval
                                 (isTargetRev block) in
    insert_and_push canonicalIndex newNode c.

(** [while(!m_queue.empty()) m_queue.pop();] *)
Fixpoint pop_all (q : list ClusterNode) : list ClusterNode :=
  match q with
  | [] => []
  | _ :: q' => pop_all q'
  end.

(** The three ways one turn of the [while] loop of [run] can go. *)
Inductive Turn : Type :=
| LoopEnd (c : ReadCluster)     (* the loop condition is false *)
| EarlyReturn (c : ReadCluster) (* the [return] of the bound check *)
| NextTurn (c : ReadCluster).   (* the body ran to its end *)

(** One evaluation of the loop condition followed, when it holds, by the
    loop body. *)
Definition run_turn (max : nat) (c : ReadCluster) : Turn :=
  match m_queue c with
  | [] => LoopEnd c
  | node :: rest =>
    if max <? length (m_queue c) + length (m_outCluster c) then
      EarlyReturn (mkReadCluster (m_pOverlapper c) (m_minOverlap c)
                                 (m_usedIndex c) (pop_all (m_queue c)) []
                                 (pushLog c))
    else
      let c1 := mkReadCluster (m_pOverlapper c) (m_minOverlap c)
                              (m_usedIndex c) rest (m_outCluster c ++ [node])
                              (pushLog c) in
      let tempRecord := mkSeqRecord "cluster"%string (sequence node) in
      let blockList :=
        overlapRead (m_pOverlapper c) tempRecord (m_minOverlap c) in
      NextTurn (fold_left (expandBlock node) blockList c1)
  end.

(** The [while] loop, with a bound on the number of turns. *)
Fixpoint run_loop (fuel : nat) (max : nat) (c : ReadCluster)
  : option ReadCluster :=
  match fuel with
  | 0 => None
  | S fuel' =>
    match run_turn max c with
    | LoopEnd c' => Some c'
    | EarlyReturn c' => Some c'
    | NextTurn c' => run_loop fuel' max c'
    end
  end.

(** [ReadCluster::run].  [S max] turns always suffice ([run_loop_total]
    below), so the [None] branch is never taken. *)
Definition run (max : nat) (c : ReadCluster) : ReadCluster :=
  match run_loop (S max) max c with
  | Some c' => c'
  | None => c
  end.

(** The builder at the start of turn [k] (counting from 0), if the loop gets
    that far. *)
Fixpoint turn_start (k : nat) (max : nat) (c : ReadCluster)
  : option ReadCluster :=
  match k with
  | 0 => Some c
  | S k' =>
    match run_turn max c with
    | NextTurn c' => turn_start k' max c'
    | _ => None
    end
  end.

(** [std::sort(first, last, ClusterNode::compare)], as insertion sort.  The
    standard fixes the result up to the order of equivalent elements. *)
Fixpoint sort_insert (x : ClusterNode) (l : list ClusterNode)
  : list ClusterNode :=
  match l with
  | [] => [x]
  | y :: l' =>
    if ClusterNode_compare x y then x :: y :: l' else y :: sort_insert x l'
  end.

Definition std_sort (l : list ClusterNode) : list ClusterNode :=
  foldr sort_insert [] l.

(** [std::unique(first, last, ClusterNode::equal)] followed by the [erase]
    of the tail: of every run of consecutive equal elements the first is
    kept.  [unique_after prev l] is the scan with [prev] the last element
    kept. *)
Fixpoint unique_after (prev : ClusterNode) (l : list ClusterNode)
  : list ClusterNode :=
  match l with
  | [] => []
  | y :: l' =>
    if ClusterNode_equal prev y then unique_after prev l'
    else y :: unique_after y l'
  end.

Definition std_unique (l : list ClusterNode) : list ClusterNode :=
  match l with
  | [] => []
  | x :: l' => x :: unique_after x l'
  end.

(** [ReadCluster::getOutput] *)
Definition getOutput (c : ReadCluster) : list ClusterNode :=
  let retVector := m_outCluster c in
  let retVector := std_sort retVector in
  std_unique retVector.

(** ** Sequences of calls on one builder *)

Inductive Call : Type :=
| CallAddSeed (sequence : string) (bCheckInIndex : bool)
| CallRun (max : nat).

Definition do_call (call : Call) (c : ReadCluster) : Outcome ReadCluster :=
  match call with
  | CallAddSeed s b =>
    match addSeed s b c with
    | Returned (_, c') => Returned c'
    | Exited status => Exited status
    end
  | CallRun max => Returned (run max c)
  end.

Fixpoint do_calls (calls : list Call) (c : ReadCluster)
  : Outcome ReadCluster :=
  match calls with
  | [] => Returned c
  | call :: calls' =>
    match do_call call c with
    | Returned c' => do_calls calls' c'
    | Exited status => Exited status
    end
  end.

(** ** Vocabulary of the statements *)

(** The deduplication key of a node: the lower bound of its interval. *)
Definition key (n : ClusterNode) : Z := lower (interval n).

(** The builder as the bound check leaves it: queue and output emptied, the
    other members as they were. *)
Definition discarded (c : ReadCluster) : ReadCluster :=
  mkReadCluster (m_pOverlapper c) (m_minOverlap c) (m_usedIndex c) [] []
                (pushLog c).

(** "Lower bound primary, upper bound secondary", as relations. *)
Definition interval_lt (a b : BWTInterval) : Prop :=
  (lower a < lower b)%Z ∨ (lower a = lower b ∧ upper a < upper b)%Z.

Definition interval_le (a b : BWTInterval) : Prop :=
  (lower a < lower b)%Z ∨ (lower a = lower b ∧ upper a <= upper b)%Z.

(** The two relations on nodes: nodes are compared by their intervals. *)
Definition node_lt (a b : ClusterNode) : Prop :=
  interval_lt (interval a) (interval b).

Definition node_le (a b : ClusterNode) : Prop :=
  interval_le (interval a) (interval b).

(** What the [for] loop over a block list does to the builder: it appends
    some nodes [new] to the queue (and to the log), every one built from a
    block of the list, with keys that were not visited before the loop and
    that differ from each other, and it marks exactly these keys. *)
Record Expansion (node : ClusterNode) (blocks : OverlapBlockList)
  (c c' : ReadCluster) (new : list ClusterNode) : Prop := {
  exp_overlapper : m_pOverlapper c' = m_pOverlapper c;
  exp_minOverlap : m_minOverlap c' = m_minOverlap c;
  exp_queue : m_queue c' = m_queue c ++ new;
  exp_out : m_outCluster c' = m_outCluster c;
  exp_log : pushLog c' = pushLog c ++ new;
  exp_used : m_usedIndex c' = m_usedIndex c ∪ list_to_set (key <$> new);
  exp_fresh : ∀ n, n ∈ new → key n ∉ m_usedIndex c;
  exp_nodup : NoDup (key <$> new);
  exp_from_block : ∀ n, n ∈ new →
    ∃ b, b ∈ blocks ∧ interval n = getCanonicalInterval b
         ∧ sequence n = getFullString b (sequence node)
         ∧ isReverseInterval n = isTargetRev b
}.

(** The nodes [new] pushed between [c] and [c'], in order: they extend the
    log, their keys are exactly what the visited set gains, and each key was
    unvisited when its node was pushed (not visited at [c], and not the key
    of an earlier node of [new]). *)
Record Pushes (c c' : ReadCluster) (new : list ClusterNode) : Prop := {
  pu_overlapper : m_pOverlapper c' = m_pOverlapper c;
  pu_minOverlap : m_minOverlap c' = m_minOverlap c;
  pu_log : pushLog c' = pushLog c ++ new;
  pu_used : m_usedIndex c' = m_usedIndex c ∪ list_to_set (key <$> new);
  pu_fresh : ∀ n, n ∈ new → key n ∉ m_usedIndex c;
  pu_nodup : NoDup (key <$> new)
}.

(** The calls that seed a builder before its run, one per sequence. *)
Definition seed_calls (seeds : list (string * bool)) : list Call :=
  (λ sb, CallAddSeed sb.1 sb.2) <$> seeds.

(** Every key in the log of pushes is in the visited set. *)
Definition log_visited (c : ReadCluster) : Prop :=
  ∀ n, n ∈ pushLog c → key n ∈ m_usedIndex c.

(** Every node waiting in the queue or moved to the output has a valid
    interval. *)
Definition nodes_valid (c : ReadCluster) : Prop :=
  Forall (λ n, isValid (interval n) = true) (m_queue c)
  ∧ Forall (λ n, isValid (interval n) = true) (m_outCluster c).

(** The overlapper reports only blocks with a valid canonical interval. *)
Definition blocks_valid (O : OverlapAlgorithm) : Prop :=
  ∀ r m b, b ∈ overlapRead O r m → isValid (getCanonicalInterval b) = true.

(** A seed that [addSeed] lets into the queue with an empty interval: it is
    no substring, index membership is not required, and the narrowed interval
    is empty. *)
Definition enqueues_invalid (O : OverlapAlgorithm) (call : Call) : bool :=
  match call with
  | CallAddSeed s b =>
    negb b
    && negb (isSubstring (alignReadDuplicate O (mkSeqRecord "cluster-seed"%string s)))
    && negb (isValid (updateInterval O (findInterval O s) "$"%char))
  | CallRun _ => false
  end.

(** The two conditions under which [addSeed] gives up, for a seed that is
    required to be in the index. *)
Definition fatal_seed (O : OverlapAlgorithm) (s : string) : bool :=
  isSubstring (alignReadDuplicate O (mkSeqRecord "cluster-seed"%string s))
  || negb (isValid (updateInterval O (findInterval O s) "$"%char)).

(** ** A small index to run the code on

    Two reads that overlap each other, ["ACGTACGT"] at [4,4] and
    ["ACGTACGTTT"] at [7,7] (so the overlap graph has the cycle 4 - 7 - 4),
    the read ["CGTA"] contained in another read, and nothing else. *)
Definition demo_overlapper : OverlapAlgorithm :=
  mkOverlapAlgorithm
    (fun r => mkOverlapResult (String.eqb (SeqRecord_seq r) "CGTA"))
    (fun w => if String.eqb w "ACGTACGT" then mkBWTInterval 4 4
              else if String.eqb w "ACGTACGTTT" then mkBWTInterval 7 7
              else mkBWTInterval 5 4)
    (fun i _ => i)
    (fun r _ =>
       if String.eqb (SeqRecord_seq r) "ACGTACGT" then
         [mkOverlapBlock (mkBWTInterval 7 7) (fun s => (s ++ "TT")%string) false]
       else if String.eqb (SeqRecord_seq r) "ACGTACGTTT" then
         [mkOverlapBlock (mkBWTInterval 4 4) (fun _ => "ACGTACGT"%string) false]
       else []).

Definition demo_new : ReadCluster := ReadCluster_new demo_overlapper 3.

Definition demo_seed : ClusterNode :=
  mkClusterNode "ACGTACGT" (mkBWTInterval 4 4) false.

Definition demo_neighbour : ClusterNode :=
  mkClusterNode "ACGTACGTTT" (mkBWTInterval 7 7) false.

(** [demo_new] after [addSeed("ACGTACGT", true)]. *)
Definition demo_seeded : ReadCluster :=
  mkReadCluster demo_overlapper 3 {[ 4%Z ]} [demo_seed] [] [demo_seed].

(** [demo_seeded] after the first turn of [run]: the seed is in the output
    and its neighbour waits in the queue. *)
Definition demo_expanded : ReadCluster :=
  mkReadCluster demo_overlapper 3 ({[ 7%Z ]} ∪ {[ 4%Z ]}) [demo_neighbour]
                [demo_seed] [demo_seed; demo_neighbour].

(** ** Vocabulary for whole runs *)

(** The block list [run] asks for when it expands [parent]. *)
Definition hits_of (c : ReadCluster) (parent : ClusterNode) : OverlapBlockList :=
  overlapRead (m_pOverlapper c)
              (mkSeqRecord "cluster"%string (sequence parent))
              (m_minOverlap c).

(** The node [run] builds from a block found while expanding [parent]. *)
Definition node_of_block (parent : ClusterNode) (b : OverlapBlock)
  : ClusterNode :=
  mkClusterNode (getFullString b (sequence parent)) (getCanonicalInterval b)
                (isTargetRev b).

(** [run(max)] leaves the loop because the queue is empty. *)
Definition run_completes (max : nat) (c : ReadCluster) : Prop :=
  ∃ k ck, turn_start k max c = Some ck ∧ m_queue ck = [].

(** [run(max)] leaves the loop through the [return] of the bound check. *)
Definition run_aborts (max : nat) (c : ReadCluster) : Prop :=
  ∃ k ck, turn_start k max c = Some ck ∧ m_queue ck ≠ []
          ∧ max < length (m_queue ck) + length (m_outCluster ck).

(** What some turns of the loop body did between [c] and [ck]: the nodes
    [expanded] were taken from the front of the queue and appended to the
    output in that order, the nodes [new] were pushed, each built from a
    block reported for an expanded node, and every block reported for an
    expanded node has its key visited. *)
Record Trace (c ck : ReadCluster) (expanded new : list ClusterNode)
  : Prop := {
  tr_out : m_outCluster ck = m_outCluster c ++ expanded;
  tr_queue : expanded ++ m_queue ck = m_queue c ++ new;
  tr_pushes : Pushes c ck new;
  tr_parent : ∀ n, n ∈ new →
    ∃ parent b, parent ∈ expanded ∧ b ∈ hits_of c parent
                ∧ n = node_of_block parent b;
  tr_closed : ∀ parent b, parent ∈ expanded → b ∈ hits_of c parent →
    lower (getCanonicalInterval b) ∈ m_usedIndex ck
}.

(** The blocks of a block list that the [for] loop of [run] turns into
    nodes when it starts from the visited set [used]: a block is taken when
    its key is unvisited, and its key is visited from then on. *)
Fixpoint fresh_blocks (used : gset Z) (blocks : OverlapBlockList)
  : OverlapBlockList :=
  match blocks with
  | [] => []
  | b :: blocks' =>
    if decide (lower (getCanonicalInterval b) ∈ used) then
      fresh_blocks used blocks'
    else
      b :: fresh_blocks ({[ lower (getCanonicalInterval b) ]} ∪ used) blocks'
  end.

(** Who pushed what between [c] and [ck]: the nodes [expanded] were moved
    to the output in that order, and [groups] lists, for each of them in
    turn, the nodes pushed while it was expanded.  The group of an expanded
    node is built from the blocks of its block list that are fresh with
    respect to the keys visited at [c] and the keys of the groups before it,
    in block-list order; and every pushed node stands, in the sequence
    "queue at [c], then everything pushed", strictly after the node whose
    expansion pushed it. *)
Record Lineage (c ck : ReadCluster) (expanded : list ClusterNode)
  (groups : list (list ClusterNode)) : Prop := {
  li_out : m_outCluster ck = m_outCluster c ++ expanded;
  li_queue : expanded ++ m_queue ck = m_queue c ++ concat groups;
  li_log : pushLog ck = pushLog c ++ concat groups;
  li_used :
    m_usedIndex ck = m_usedIndex c ∪ list_to_set (key <$> concat groups);
  li_length : length groups = length expanded;
  li_group : ∀ j parent, expanded !! j = Some parent →
    groups !! j
    = Some (node_of_block parent
              <$> fresh_blocks
                    (m_usedIndex c
                     ∪ list_to_set (key <$> concat (take j groups)))
                    (hits_of c parent));
  li_before : ∀ i n, concat groups !! i = Some n →
    ∃ j parent b,
      expanded !! j = Some parent ∧ j < length (m_queue c) + i
      ∧ b ∈ hits_of c parent ∧ n = node_of_block parent b
}.

(** The nodes a list of seeds puts into the queue: one per sequence that is
    not reported as a substring, in the order of the calls. *)
Fixpoint seed_nodes (O : OverlapAlgorithm) (seeds : list (string * bool))
  : list ClusterNode :=
  match seeds with
  | [] => []
  | (s, _) :: seeds' =>
    if isSubstring (alignReadDuplicate O (mkSeqRecord "cluster-seed"%string s))
    then seed_nodes O seeds'
    else mkClusterNode s (updateInterval O (findInterval O s) "$"%char) false
         :: seed_nodes O seeds'
  end.

(** Every node waiting in the queue or moved to the output has its key in
    the visited set. *)
Definition keys_visited (c : ReadCluster) : Prop :=
  ∀ n, n ∈ m_queue c ++ m_outCluster c → key n ∈ m_usedIndex c.

(** The builder with [l] in place of its accumulated output. *)
Definition with_output (l : list ClusterNode) (c : ReadCluster) : ReadCluster :=
  mkReadCluster (m_pOverlapper c) (m_minOverlap c) (m_usedIndex c) (m_queue c)
                l (pushLog c).

(** [demo_seeded] after [run(10)]: both reads are in the output. *)
Definition demo_done : ReadCluster :=
  mkReadCluster demo_overlapper 3 ({[ 7%Z ]} ∪ {[ 4%Z ]}) []
                [demo_seed; demo_neighbour] [demo_seed; demo_neighbour].

(** * Properties *)

(** ** The expansion of one node *)

Lemma pop_all_nil q : pop_all q = [].
Proof. induction q as [|n q IH]; [reflexivity | exact IH]. Qed.

Lemma expandBlock_visited node c block :
  lower (getCanonicalInterval block) ∈ m_usedIndex c →
  expandBlock node c block = c.
Proof. intros Hin. unfold expandBlock. by rewrite decide_True. Qed.

Lemma expandBlock_fresh node c block :
  lower (getCanonicalInterval block) ∉ m_usedIndex c →
  expandBlock node c block =
  insert_and_push (lower (getCanonicalInterval block))
    (mkClusterNode (getFullString block (sequence node))
                   (getCanonicalInterval block) (isTargetRev block)) c.
Proof. intros Hout. unfold expandBlock. by rewrite decide_False. Qed.

Lemma expansion_spec node blocks c :
  ∃ new, Expansion node blocks c (fold_left (expandBlock node) blocks c) new.
Proof.
  revert c. induction blocks as [|b blocks IH]; intros c; simpl.
  - exists []. split; simpl; rewrite ?app_nil_r; try done.
    + set_solver.
    + intros n Hn. by apply elem_of_nil in Hn.
    + constructor.
    + intros n Hn. by apply elem_of_nil in Hn.
  - destruct (decide (lower (getCanonicalInterval b) ∈ m_usedIndex c)) as [Hin|Hout].
    + rewrite expandBlock_visited by done.
      destruct (IH c) as [new [H1 H2 H3 H4 H5 H6 H7 H8 H9]].
      exists new. split; try done.
      intros n Hn. destruct (H9 n Hn) as (b' & Hb' & Hrest).
      exists b'. split; [by apply elem_of_cons; right | done].
    + rewrite expandBlock_fresh by done.
      set (n0 := mkClusterNode _ _ _).
      set (c1 := insert_and_push _ n0 c).
      destruct (IH c1) as [new [H1 H2 H3 H4 H5 H6 H7 H8 H9]].
      exists (n0 :: new). split.
      * by rewrite H1.
      * by rewrite H2.
      * rewrite H3. simpl. by rewrite <- app_assoc.
      * by rewrite H4.
      * rewrite H5. simpl. by rewrite <- app_assoc.
      * rewrite H6. simpl. unfold key at 2. simpl. set_solver.
      * intros n Hn. apply elem_of_cons in Hn as [-> | Hn]; [done|].
        specialize (H7 n Hn). simpl in H7. set_solver.
      * simpl. constructor; [|done].
        intros Hk. apply list_elem_of_fmap in Hk as (n & Hkn & Hn).
        specialize (H7 n Hn). simpl in H7. unfold key in Hkn at 1. simpl in Hkn.
        rewrite <- Hkn in H7. set_solver.
      * intros n Hn. apply elem_of_cons in Hn as [-> | Hn].
        -- exists b. split; [by apply elem_of_cons; left | done].
        -- destruct (H9 n Hn) as (b' & Hb' & Hrest).
           exists b'. split; [by apply elem_of_cons; right | done].
Qed.

(** ** One turn of the loop *)

Lemma run_turn_empty max c :
  m_queue c = [] → run_turn max c = LoopEnd c.
Proof. intros Hq. unfold run_turn. by rewrite Hq. Qed.

Lemma run_turn_exceeded max c :
  m_queue c ≠ [] → max < length (m_queue c) + length (m_outCluster c) →
  run_turn max c = EarlyReturn (discarded c).
Proof.
  intros Hq Hlt. unfold run_turn, discarded.
  destruct (m_queue c) as [|node rest] eqn:E; [done|].
  destruct (Nat.ltb_spec max (length (node :: rest) + length (m_outCluster c)));
    [|lia].
  by rewrite pop_all_nil.
Qed.

Lemma run_turn_expand max c node rest :
  m_queue c = node :: rest →
  length (m_queue c) + length (m_outCluster c) ≤ max →
  run_turn max c =
  NextTurn (fold_left (expandBlock node)
              (overlapRead (m_pOverlapper c)
                 (mkSeqRecord "cluster"%string (sequence node)) (m_minOverlap c))
              (mkReadCluster (m_pOverlapper c) (m_minOverlap c) (m_usedIndex c)
                 rest (m_outCluster c ++ [node]) (pushLog c))).
Proof.
  intros Hq Hle. unfold run_turn. rewrite Hq in *.
  destruct (Nat.ltb_spec max (length (node :: rest) + length (m_outCluster c)));
    [lia | done].
Qed.

(** The three cases of a turn, by what the turn finds. *)
Lemma run_turn_cases max c :
  (m_queue c = [] ∧ run_turn max c = LoopEnd c)
  ∨ (m_queue c ≠ [] ∧ max < length (m_queue c) + length (m_outCluster c)
     ∧ run_turn max c = EarlyReturn (discarded c))
  ∨ (∃ node rest new c',
       m_queue c = node :: rest
       ∧ length (m_queue c) + length (m_outCluster c) ≤ max
       ∧ run_turn max c = NextTurn c'
       ∧ Expansion node
           (overlapRead (m_pOverlapper c)
              (mkSeqRecord "cluster"%string (sequence node)) (m_minOverlap c))
           (mkReadCluster (m_pOverlapper c) (m_minOverlap c) (m_usedIndex c)
              rest (m_outCluster c ++ [node]) (pushLog c))
           c' new).
Proof.
  destruct (m_queue c) as [|node rest] eqn:Hq.
  - left. split; [done|]. by apply run_turn_empty.
  - destruct (decide (max < length (m_queue c) + length (m_outCluster c)))
      as [Hlt|Hge].
    + right; left. rewrite <- Hq. split; [by rewrite Hq|]. split; [done|].
      apply run_turn_exceeded; [by rewrite Hq | done].
    + right; right.
      destruct (expansion_spec node
        (overlapRead (m_pOverlapper c)
           (mkSeqRecord "cluster"%string (sequence node)) (m_minOverlap c))
        (mkReadCluster (m_pOverlapper c) (m_minOverlap c) (m_usedIndex c)
           rest (m_outCluster c ++ [node]) (pushLog c))) as [new Hexp].
      eexists node, rest, new, _. split; [done|].
      rewrite <- Hq. split; [lia|]. split; [|exact Hexp].
      apply run_turn_expand; [done | lia].
Qed.

(** A turn that runs the body moves one node to the output. *)
Lemma run_turn_next_out max c c' :
  run_turn max c = NextTurn c' →
  length (m_outCluster c') = S (length (m_outCluster c))
  ∧ length (m_outCluster c') ≤ max.
Proof.
  intros Hturn.
  destruct (run_turn_cases max c)
    as [[_ H] | [(_ & _ & H) | (node & rest & new & c1 & Hq & Hle & H & Hexp)]];
    rewrite H in Hturn; try discriminate.
  injection Hturn as ->. rewrite (exp_out _ _ _ _ _ Hexp). simpl.
  rewrite length_app. simpl. rewrite Hq in Hle. simpl in Hle. lia.
Qed.

(** ** Termination of the loop *)

Lemma run_loop_enough fuel max c :
  max - length (m_outCluster c) < fuel → is_Some (run_loop fuel max c).
Proof.
  revert c. induction fuel as [|fuel IH]; intros c Hfuel; [lia|].
  simpl. destruct (run_turn max c) as [c'|c'|c'] eqn:Hturn; [by eexists..|].
  apply IH. apply run_turn_next_out in Hturn. lia.
Qed.

Lemma run_loop_more fuel fuel' max c r :
  run_loop fuel max c = Some r → fuel ≤ fuel' → run_loop fuel' max c = Some r.
Proof.
  revert fuel' c. induction fuel as [|fuel IH]; intros fuel' c Hrun Hle;
    [discriminate|].
  destruct fuel' as [|fuel']; [lia|]. simpl in *.
  destruct (run_turn max c) as [c'|c'|c']; try done.
  apply IH; [done | lia].
Qed.

Lemma run_loop_total max c : run_loop (S max) max c = Some (run max c).
Proof.
  unfold run. destruct (run_loop_enough (S max) max c) as [r Hr]; [lia|].
  by rewrite Hr.
Qed.

Lemma run_loop_run fuel max c r :
  run_loop fuel max c = Some r → r = run max c.
Proof.
  intros Hrun. pose proof (run_loop_total max c) as Htot.
  destruct (Nat.le_ge_cases fuel (S max)) as [Hle|Hle].
  - rewrite (run_loop_more _ _ _ _ _ Hrun Hle) in Htot. congruence.
  - rewrite (run_loop_more _ _ _ _ _ Htot Hle) in Hrun. congruence.
Qed.

Lemma run_loop_S fuel max c :
  run_loop (S fuel) max c =
  match run_turn max c with
  | LoopEnd c' => Some c'
  | EarlyReturn c' => Some c'
  | NextTurn c' => run_loop fuel max c'
  end.
Proof. reflexivity. Qed.

(** [run] obeys the equation of the [while] loop. *)
Lemma run_unfold max c :
  run max c =
  match run_turn max c with
  | LoopEnd c' => c'
  | EarlyReturn c' => c'
  | NextTurn c' => run max c'
  end.
Proof.
  destruct (run_loop_enough (S (S max)) max c) as [r Hr]; [lia|].
  rewrite <- (run_loop_run _ _ _ _ Hr).
  rewrite run_loop_S in Hr.
  destruct (run_turn max c) as [c'|c'|c']; try congruence.
  by apply run_loop_run in Hr.
Qed.

(** Induction along the turns of [run]: a relation between the builder
    before and after that holds for the two ways out of the loop and is
    carried backwards over a turn of the body holds for [run]. *)
Lemma run_rel_ind max (P : ReadCluster → ReadCluster → Prop) :
  (∀ c, m_queue c = [] → P c c) →
  (∀ c, m_queue c ≠ [] →
        max < length (m_queue c) + length (m_outCluster c) →
        P c (discarded c)) →
  (∀ c c1 c', run_turn max c = NextTurn c1 → P c1 c' → P c c') →
  ∀ c, P c (run max c).
Proof.
  intros Hend Hret Hnext c.
  remember (S (max - length (m_outCluster c))) as n eqn:Hn.
  assert (max - length (m_outCluster c) < n) as Hlt by lia. clear Hn.
  revert c Hlt. induction n as [|n IH]; intros c Hlt; [lia|].
  rewrite run_unfold.
  destruct (run_turn_cases max c)
    as [[Hq H] | [(Hq & Hex & H) | (node & rest & new & c1 & Hq & Hle & H & Hexp)]];
    rewrite H.
  - by apply Hend.
  - by apply Hret.
  - apply (Hnext c c1); [done|]. apply IH.
    apply run_turn_next_out in H. lia.
Qed.

(** ** What a whole [run] pushes *)

Lemma Pushes_nil c c' :
  m_pOverlapper c' = m_pOverlapper c → m_minOverlap c' = m_minOverlap c →
  pushLog c' = pushLog c → m_usedIndex c' = m_usedIndex c →
  Pushes c c' [].
Proof.
  intros H1 H2 H3 H4. split; simpl; rewrite ?app_nil_r; try done.
  - set_solver.
  - intros n Hn. by apply elem_of_nil in Hn.
  - constructor.
Qed.

Lemma Pushes_trans c c1 c' new1 new2 :
  Pushes c c1 new1 → Pushes c1 c' new2 → Pushes c c' (new1 ++ new2).
Proof.
  intros [A1 A2 A3 A4 A5 A6] [B1 B2 B3 B4 B5 B6]. split.
  - congruence.
  - congruence.
  - rewrite B3, A3. by rewrite app_assoc.
  - rewrite B4, A4, fmap_app, list_to_set_app_L. set_solver.
  - intros n Hn. apply elem_of_app in Hn as [Hn|Hn]; [by apply A5|].
    specialize (B5 n Hn). rewrite A4 in B5. set_solver.
  - rewrite fmap_app. apply NoDup_app. split; [done|]. split; [|done].
    intros k Hk1 Hk2. apply list_elem_of_fmap in Hk2 as (n & -> & Hn).
    specialize (B5 n Hn). rewrite A4 in B5.
    apply B5. apply elem_of_union_r. by apply elem_of_list_to_set.
Qed.

Lemma run_turn_pushes max c c1 :
  run_turn max c = NextTurn c1 → ∃ new, Pushes c c1 new.
Proof.
  intros Hturn.
  destruct (run_turn_cases max c)
    as [[_ H] | [(_ & _ & H) | (node & rest & new & c' & Hq & Hle & H & Hexp)]];
    rewrite H in Hturn; try discriminate.
  injection Hturn as ->. exists new.
  destruct Hexp as [E1 E2 E3 E4 E5 E6 E7 E8 E9]. by split.
Qed.

Lemma run_pushes max c : ∃ new, Pushes c (run max c) new.
Proof.
  apply (run_rel_ind max (λ c c', ∃ new, Pushes c c' new)); clear c.
  - intros c _. exists []. by apply Pushes_nil.
  - intros c _ _. exists []. by apply Pushes_nil.
  - intros c c1 c' Hturn [new2 H2].
    destruct (run_turn_pushes _ _ _ Hturn) as [new1 H1].
    exists (new1 ++ new2). by eapply Pushes_trans.
Qed.

(** ** The states at the start of the turns *)

Lemma turn_start_run k max c ck :
  turn_start k max c = Some ck → run max c = run max ck.
Proof.
  revert c. induction k as [|k IH]; intros c Hk; simpl in Hk.
  - by injection Hk as ->.
  - rewrite (run_unfold max c).
    destruct (run_turn max c) as [c'|c'|c']; try discriminate. by apply IH.
Qed.

Lemma turn_start_pushes k max c ck :
  turn_start k max c = Some ck → ∃ new, Pushes c ck new.
Proof.
  revert c. induction k as [|k IH]; intros c Hk; simpl in Hk.
  - injection Hk as ->. exists []. by apply Pushes_nil.
  - destruct (run_turn max c) as [c'|c'|c'] eqn:Hturn; try discriminate.
    destruct (run_turn_pushes _ _ _ Hturn) as [new1 H1].
    destruct (IH _ Hk) as [new2 H2].
    exists (new1 ++ new2). by eapply Pushes_trans.
Qed.

Lemma turn_start_loop k max c ck fuel r :
  turn_start k max c = Some ck →
  run_loop fuel max ck = Some r → run_loop (k + fuel) max c = Some r.
Proof.
  revert c. induction k as [|k IH]; intros c Hk Hrun; simpl in Hk.
  - by injection Hk as ->.
  - change (S k + fuel) with (S (k + fuel)). rewrite run_loop_S.
    destruct (run_turn max c) as [c'|c'|c']; try discriminate. by apply IH.
Qed.

Lemma getOutput_discarded c : getOutput (discarded c) = [].
Proof. reflexivity. Qed.

(** ** The bound check *)

(** C1 (as amended): whenever, at the start of a turn of the loop of
    [run(max)], the queue is not empty and queue size plus output size
    exceeds [max], the run ends there: queue and output are emptied and the
    final output is the empty list.  The visited set is not cleared: it is
    what it was at that turn, and so still holds every key visited before
    the run. *)
Theorem run_bound_exceeded_discards max c k ck :
  turn_start k max c = Some ck →
  m_queue ck ≠ [] →
  max < length (m_queue ck) + length (m_outCluster ck) →
  run max c = discarded ck
  ∧ m_queue (run max c) = []
  ∧ m_outCluster (run max c) = []
  ∧ getOutput (run max c) = []
  ∧ m_usedIndex (run max c) = m_usedIndex ck
  ∧ m_usedIndex c ⊆ m_usedIndex (run max c).
Proof.
  intros Hk Hq Hlt.
  assert (run max c = discarded ck) as Hrun.
  { rewrite (turn_start_run _ _ _ _ Hk), run_unfold.
    by rewrite run_turn_exceeded. }
  rewrite Hrun. repeat split; try done.
  destruct (turn_start_pushes _ _ _ _ Hk) as [new Hnew].
  simpl. rewrite (pu_used _ _ _ Hnew). set_solver.
Qed.

Lemma run_bound_exceeded_discards_witness :
  run 1 demo_seeded = discarded demo_expanded
  ∧ m_queue (run 1 demo_seeded) = []
  ∧ m_outCluster (run 1 demo_seeded) = []
  ∧ getOutput (run 1 demo_seeded) = []
  ∧ m_usedIndex (run 1 demo_seeded) = m_usedIndex demo_expanded
  ∧ m_usedIndex demo_seeded ⊆ m_usedIndex (run 1 demo_seeded).
Proof.
  apply (run_bound_exceeded_discards 1 demo_seeded 1 demo_expanded).
  - vm_compute. reflexivity.
  - simpl. discriminate.
  - simpl. lia.
Defined.

(** C1 (as stated) fails: a builder seeded with one read and run with bound
    0 meets the bound check on its first turn, and afterwards the visited
    set still holds the key of the seed. *)
Lemma run_bound_exceeded_keeps_visited :
  addSeed "ACGTACGT" true demo_new = Returned (demo_seed, demo_seeded)
  ∧ m_queue demo_seeded ≠ []
  ∧ 0 < length (m_queue demo_seeded) + length (m_outCluster demo_seeded)
  ∧ m_queue (run 0 demo_seeded) = []
  ∧ m_outCluster (run 0 demo_seeded) = []
  ∧ m_usedIndex (run 0 demo_seeded) = {[ 4%Z ]}
  ∧ m_usedIndex (run 0 demo_seeded) ≠ ∅.
Proof.
  split; [by vm_compute|]. split; [simpl; discriminate|].
  split; [simpl; lia|]. split; [reflexivity|]. split; [reflexivity|].
  assert (m_usedIndex (run 0 demo_seeded) = {[ 4%Z ]}) as H by reflexivity.
  split; [exact H|]. rewrite H. set_solver.
Qed.

(** ** Termination *)

(** C8: [run(max)] terminates from every builder, after at most [max] turns
    of the body, and it leaves the loop at a turn that finds either the
    queue empty (the builder is returned as it is) or the bound exceeded
    (the builder is returned with queue and output discarded). *)
Theorem run_terminates max c :
  ∃ k ck,
    k ≤ max
    ∧ turn_start k max c = Some ck
    ∧ ((m_queue ck = [] ∧ run max c = ck)
       ∨ (m_queue ck ≠ []
          ∧ max < length (m_queue ck) + length (m_outCluster ck)
          ∧ run max c = discarded ck))
    ∧ ∀ fuel, k < fuel → run_loop fuel max c = Some (run max c).
Proof.
  cut (∃ k ck,
    k ≤ max - length (m_outCluster c)
    ∧ turn_start k max c = Some ck
    ∧ ((m_queue ck = [] ∧ run max c = ck)
       ∨ (m_queue ck ≠ []
          ∧ max < length (m_queue ck) + length (m_outCluster ck)
          ∧ run max c = discarded ck))
    ∧ ∀ fuel, k < fuel → run_loop fuel max c = Some (run max c)).
  { intros (k & ck & Hk & H). exists k, ck. split; [lia | done]. }
  apply (run_rel_ind max (λ c c', ∃ k ck,
    k ≤ max - length (m_outCluster c)
    ∧ turn_start k max c = Some ck
    ∧ ((m_queue ck = [] ∧ c' = ck)
       ∨ (m_queue ck ≠ []
          ∧ max < length (m_queue ck) + length (m_outCluster ck)
          ∧ c' = discarded ck))
    ∧ ∀ fuel, k < fuel → run_loop fuel max c = Some c')); clear c.
  - intros c Hq. exists 0, c. split; [lia|]. split; [done|].
    split; [by left|]. intros [|fuel] Hfuel; [lia|].
    by rewrite run_loop_S, run_turn_empty.
  - intros c Hq Hlt. exists 0, c. split; [lia|]. split; [done|].
    split; [by right|]. intros [|fuel] Hfuel; [lia|].
    by rewrite run_loop_S, run_turn_exceeded.
  - intros c c1 c' Hturn (k & ck & Hk & Hstart & Hexit & Hloop).
    exists (S k), ck. pose proof (run_turn_next_out _ _ _ Hturn) as [Ho1 Ho2].
    split; [lia|]. split; [by simpl; rewrite Hturn|]. split; [done|].
    intros [|fuel] Hfuel; [lia|].
    rewrite run_loop_S, Hturn. apply Hloop. lia.
Qed.

(** ** Sorting and deduplication of the output *)

Section Comparators.

Lemma BWTInterval_compare_lt a b :
  BWTInterval_compare a b = true ↔ interval_lt a b.
Proof.
  unfold BWTInterval_compare, interval_lt.
  destruct (Z.eqb_spec (lower a) (lower b)) as [Heq|Hne].
  - rewrite Z.ltb_lt. lia.
  - rewrite Z.ltb_lt. lia.
Qed.

Lemma BWTInterval_compare_ge a b :
  BWTInterval_compare a b = false ↔ interval_le b a.
Proof.
  unfold BWTInterval_compare, interval_le.
  destruct (Z.eqb_spec (lower a) (lower b)) as [Heq|Hne].
  - rewrite Z.ltb_ge. lia.
  - rewrite Z.ltb_ge. lia.
Qed.

Lemma BWTInterval_equal_eq a b : BWTInterval_equal a b = true ↔ a = b.
Proof.
  unfold BWTInterval_equal. rewrite andb_true_iff, !Z.eqb_eq.
  destruct a, b; simpl. split; [intros [-> ->]; done | by inversion 1].
Qed.

Lemma interval_lt_le a b : interval_lt a b → interval_le a b.
Proof. unfold interval_lt, interval_le. lia. Qed.

Lemma interval_lt_irrefl a : ¬ interval_lt a a.
Proof. unfold interval_lt. lia. Qed.

Lemma interval_le_trans a b c :
  interval_le a b → interval_le b c → interval_le a c.
Proof. unfold interval_le. lia. Qed.

Lemma interval_lt_le_trans a b c :
  interval_lt a b → interval_le b c → interval_lt a c.
Proof. unfold interval_lt, interval_le. lia. Qed.

Lemma interval_le_neq_lt a b : interval_le a b → a ≠ b → interval_lt a b.
Proof.
  unfold interval_lt, interval_le. destruct a as [la ua], b as [lb ub]; simpl.
  intros Hle Hne.
  destruct (decide (la = lb)) as [->|]; [|lia].
  destruct (decide (ua = ub)) as [->|]; [done | lia].
Qed.

End Comparators.

Lemma sort_insert_Permutation x l : sort_insert x l ≡ₚ x :: l.
Proof.
  induction l as [|y l IH]; simpl; [done|].
  destruct (ClusterNode_compare x y); [done|].
  rewrite IH. apply Permutation_swap.
Qed.

Lemma std_sort_Permutation l : std_sort l ≡ₚ l.
Proof.
  induction l as [|x l IH]; simpl; [done|].
  fold (std_sort l). by rewrite sort_insert_Permutation, IH.
Qed.

Lemma sort_insert_sorted x l :
  StronglySorted node_le l → StronglySorted node_le (sort_insert x l).
Proof.
  induction 1 as [|y l Hl IH Hy]; simpl.
  - repeat constructor.
  - destruct (ClusterNode_compare x y) eqn:Hc.
    + apply BWTInterval_compare_lt, interval_lt_le in Hc.
      constructor; [by constructor|]. constructor; [done|].
      eapply Forall_impl; [exact Hy|]. intros z Hz.
      by eapply interval_le_trans.
    + apply BWTInterval_compare_ge in Hc.
      constructor; [done|]. rewrite sort_insert_Permutation.
      by constructor.
Qed.

Lemma std_sort_sorted l : StronglySorted node_le (std_sort l).
Proof.
  induction l as [|x l IH]; simpl; [constructor|].
  by apply sort_insert_sorted.
Qed.

(** The scan of [std::unique] over a sorted range yields a strictly
    ascending range above the element last kept. *)
Lemma unique_after_sorted prev l :
  Forall (node_le prev) l → StronglySorted node_le l →
  Forall (node_lt prev) (unique_after prev l)
  ∧ StronglySorted node_lt (unique_after prev l).
Proof.
  intros Hprev Hl. revert prev Hprev.
  induction Hl as [|y l Hl IH Hy]; intros prev Hprev; simpl.
  - split; constructor.
  - apply Forall_cons in Hprev as [Hpy Hprev].
    destruct (ClusterNode_equal prev y) eqn:He.
    + by apply IH.
    + assert (node_lt prev y) as Hlt.
      { apply interval_le_neq_lt; [done|]. intros Heq.
        apply BWTInterval_equal_eq in Heq. unfold ClusterNode_equal in He.
        congruence. }
      destruct (IH y Hy) as [IH1 IH2].
      split; constructor; try done.
      eapply Forall_impl; [exact IH1|]. intros z Hz.
      unfold node_lt in *. eapply interval_lt_le_trans; [exact Hlt|].
      by apply interval_lt_le.
Qed.

Lemma std_unique_sorted l :
  StronglySorted node_le l → StronglySorted node_lt (std_unique l).
Proof.
  destruct 1 as [|x l Hl Hx]; simpl; [constructor|].
  destruct (unique_after_sorted x l Hx Hl). by constructor.
Qed.

(** [std::unique] keeps elements of the range, and drops an element only
    if an element with the same interval is kept. *)
Lemma unique_after_sub prev l n : n ∈ unique_after prev l → n ∈ l.
Proof.
  revert prev. induction l as [|y l IH]; intros prev; simpl; [done|].
  destruct (ClusterNode_equal prev y).
  - intros Hn. apply elem_of_cons. right. by eapply IH.
  - intros Hn. apply elem_of_cons in Hn as [->|Hn]; apply elem_of_cons;
      [by left | right; by eapply IH].
Qed.

Lemma unique_after_covers prev l n :
  n ∈ l → interval n = interval prev
          ∨ interval n ∈ interval <$> unique_after prev l.
Proof.
  revert prev. induction l as [|y l IH]; intros prev Hn; simpl.
  - by apply elem_of_nil in Hn.
  - destruct (ClusterNode_equal prev y) eqn:He.
    + apply BWTInterval_equal_eq in He.
      apply elem_of_cons in Hn as [->|Hn]; [by left | by apply IH].
    + apply elem_of_cons in Hn as [->|Hn].
      * right. csimpl. apply elem_of_cons. by left.
      * right. csimpl. apply elem_of_cons.
        destruct (IH y Hn) as [Heq|Hin]; [by left | by right].
Qed.

Lemma std_unique_sub l n : n ∈ std_unique l → n ∈ l.
Proof.
  destruct l as [|x l]; simpl; [done|].
  intros Hn. apply elem_of_cons in Hn as [->|Hn]; apply elem_of_cons;
    [by left | right; by eapply unique_after_sub].
Qed.

Lemma std_unique_covers l n :
  n ∈ l → interval n ∈ interval <$> std_unique l.
Proof.
  destruct l as [|x l]; simpl; [intros Hn; by apply elem_of_nil in Hn|].
  intros Hn. csimpl. apply elem_of_cons.
  apply elem_of_cons in Hn as [->|Hn]; [by left|].
  destruct (unique_after_covers x l n Hn) as [Heq|Hin]; [by left | by right].
Qed.

Lemma unique_after_length prev l : length (unique_after prev l) ≤ length l.
Proof.
  revert prev. induction l as [|y l IH]; intros prev; simpl; [lia|].
  destruct (ClusterNode_equal prev y); simpl.
  - specialize (IH prev). lia.
  - specialize (IH y). lia.
Qed.

Lemma std_unique_length l : length (std_unique l) ≤ length l.
Proof.
  destruct l as [|x l]; simpl; [lia|].
  pose proof (unique_after_length x l). lia.
Qed.

Lemma getOutput_length c : length (getOutput c) ≤ length (m_outCluster c).
Proof.
  unfold getOutput. etransitivity; [apply std_unique_length|].
  by rewrite (Permutation_length (std_sort_Permutation _)).
Qed.

Lemma getOutput_sub c n : n ∈ getOutput c → n ∈ m_outCluster c.
Proof.
  unfold getOutput. intros Hn. apply std_unique_sub in Hn.
  by rewrite std_sort_Permutation in Hn.
Qed.

Lemma StronglySorted_lt_NoDup (l : list BWTInterval) :
  StronglySorted interval_lt l → NoDup l.
Proof.
  induction 1 as [|x l Hl IH Hx]; constructor; [|done].
  intros Hin. rewrite Forall_forall in Hx.
  by apply (interval_lt_irrefl x), Hx.
Qed.

(** The model of [std::sort] above is one of the results the standard
    allows.  The intervals of the output do not depend on the choice: any
    function that returns a sorted rearrangement of its argument gives the
    same list of intervals after [std::unique]. *)
Section AnySort.

Variable sort : list ClusterNode → list ClusterNode.
Hypothesis sort_Permutation : ∀ l, sort l ≡ₚ l.
Hypothesis sort_sorted : ∀ l, StronglySorted node_le (sort l).

Lemma unique_sort_intervals l i :
  i ∈ interval <$> std_unique (sort l) ↔ i ∈ interval <$> l.
Proof.
  split.
  - intros Hi. apply list_elem_of_fmap in Hi as (n & -> & Hn).
    apply std_unique_sub in Hn. rewrite sort_Permutation in Hn.
    by apply list_elem_of_fmap_2.
  - intros Hi. apply list_elem_of_fmap in Hi as (n & -> & Hn).
    apply std_unique_covers. by rewrite sort_Permutation.
Qed.

Lemma unique_sort_strictly_sorted l :
  StronglySorted interval_lt (interval <$> std_unique (sort l)).
Proof.
  apply (StronglySorted_fmap interval node_lt); [done|].
  apply std_unique_sorted, sort_sorted.
Qed.

End AnySort.

Lemma getOutput_any_sort sort c :
  (∀ l, sort l ≡ₚ l) → (∀ l, StronglySorted node_le (sort l)) →
  interval <$> std_unique (sort (m_outCluster c)) = interval <$> getOutput c.
Proof.
  intros Hperm Hsorted. unfold getOutput.
  pose proof (unique_sort_strictly_sorted sort Hsorted (m_outCluster c)) as S1.
  pose proof (unique_sort_strictly_sorted std_sort std_sort_sorted
                (m_outCluster c)) as S2.
  apply (StronglySorted_unique_strong interval_lt); try done.
  - intros x1 x2 _ _ H12 H21. exfalso. apply (interval_lt_irrefl x1).
    eapply interval_lt_le_trans; [exact H12 | by apply interval_lt_le].
  - apply NoDup_Permutation; try by apply StronglySorted_lt_NoDup.
    intros i. rewrite (unique_sort_intervals sort Hperm).
    by rewrite (unique_sort_intervals std_sort std_sort_Permutation).
Qed.

(** C2: whatever the builder has been through, the list [getOutput] returns
    is in ascending order of intervals (lower bound first, then upper
    bound) and no two of its nodes have the same interval.  It is moreover
    strictly ascending, made of nodes of the accumulated output, and it
    has every interval of the accumulated output. *)
Theorem getOutput_sorted_unique c :
  StronglySorted interval_le (interval <$> getOutput c)
  ∧ NoDup (interval <$> getOutput c)
  ∧ StronglySorted interval_lt (interval <$> getOutput c)
  ∧ (∀ n, n ∈ getOutput c → n ∈ m_outCluster c)
  ∧ (∀ n, n ∈ m_outCluster c → interval n ∈ interval <$> getOutput c).
Proof.
  assert (StronglySorted interval_lt (interval <$> getOutput c)) as Hlt.
  { apply (StronglySorted_fmap interval node_lt); [done|].
    apply std_unique_sorted, std_sort_sorted. }
  split; [|split; [|split; [|split]]].
  - eapply StronglySorted_fmap; [|apply std_unique_sorted, std_sort_sorted].
    intros x y. apply interval_lt_le.
  - by apply StronglySorted_lt_NoDup.
  - done.
  - apply getOutput_sub.
  - intros n Hn. unfold getOutput. apply std_unique_covers.
    by rewrite std_sort_Permutation.
Qed.

(** ** Seeding *)

Lemma addSeed_cases s b c :
  let O := m_pOverlapper c in
  let sub := isSubstring (alignReadDuplicate O (mkSeqRecord "cluster-seed"%string s)) in
  let i := updateInterval O (findInterval O s) "$"%char in
  (sub = true ∧ b = true ∧ addSeed s b c = Exited 1)
  ∨ (sub = true ∧ b = false ∧ addSeed s b c = Returned (emptyNode, c))
  ∨ (sub = false ∧ b = true ∧ isValid i = false ∧ addSeed s b c = Exited 1)
  ∨ (sub = false ∧ (b = false ∨ isValid i = true)
     ∧ addSeed s b c =
       Returned (mkClusterNode s i false,
                 insert_and_push (lower i) (mkClusterNode s i false) c)).
Proof.
  intros O sub i. unfold addSeed. fold O. fold sub. fold i.
  destruct sub, b; simpl; auto.
  - destruct (isValid i) eqn:Hv; simpl; auto 10.
  - auto 10.
Qed.

(** C5: for a sequence the overlapper reports as a substring,
    [addSeed(sequence, false)] returns a node whose interval is invalid
    (lower bound above upper bound) and hands the builder back unchanged:
    same visited set, same queue. *)
Theorem addSeed_substring_skipped s c :
  isSubstring (alignReadDuplicate (m_pOverlapper c)
                 (mkSeqRecord "cluster-seed"%string s)) = true →
  ∃ n c',
    addSeed s false c = Returned (n, c')
    ∧ isValid (interval n) = false
    ∧ (upper (interval n) < lower (interval n))%Z
    ∧ m_usedIndex c' = m_usedIndex c
    ∧ m_queue c' = m_queue c
    ∧ c' = c.
Proof.
  intros Hsub. exists emptyNode, c. unfold addSeed. rewrite Hsub.
  by repeat split.
Qed.

Lemma addSeed_substring_skipped_witness :
  ∃ n c',
    addSeed "CGTA" false demo_seeded = Returned (n, c')
    ∧ isValid (interval n) = false
    ∧ (upper (interval n) < lower (interval n))%Z
    ∧ m_usedIndex c' = m_usedIndex demo_seeded
    ∧ m_queue c' = m_queue demo_seeded
    ∧ c' = demo_seeded.
Proof. apply (addSeed_substring_skipped "CGTA" demo_seeded). reflexivity. Defined.

(** C6 (as amended): under either fatal seeding condition (the sequence is
    reported as a substring, or its narrowed interval is empty) [addSeed]
    with index membership required ends the process with exit status 1; it
    does not return, so no result of any kind reaches the caller. *)
Theorem addSeed_fatal_exits s c :
  fatal_seed (m_pOverlapper c) s = true →
  addSeed s true c = Exited 1
  ∧ ∀ r, addSeed s true c ≠ Returned r.
Proof.
  intros Hfatal.
  assert (addSeed s true c = Exited 1) as Hexit.
  { unfold fatal_seed in Hfatal. unfold addSeed.
    destruct (isSubstring _); [done|]. simpl in *. by rewrite Hfatal. }
  split; [done|]. intros r. by rewrite Hexit.
Qed.

Lemma addSeed_fatal_exits_witness :
  addSeed "TTTT" true demo_seeded = Exited 1
  ∧ ∀ r, addSeed "TTTT" true demo_seeded ≠ Returned r.
Proof. apply (addSeed_fatal_exits "TTTT" demo_seeded). reflexivity. Defined.

(** [addSeed] ends the process in no other case. *)
Lemma addSeed_exit_only_fatal s b c status :
  addSeed s b c = Exited status →
  b = true ∧ fatal_seed (m_pOverlapper c) s = true ∧ status = 1%Z.
Proof.
  intros Hexit. unfold fatal_seed.
  destruct (addSeed_cases s b c)
    as [(Hs & Hb & H) | [(Hs & Hb & H) | [(Hs & Hb & Hv & H) | (Hs & Hb & H)]]];
    rewrite H in Hexit; try discriminate; injection Hexit as <-.
  - by rewrite Hs.
  - by rewrite Hs, Hv.
Qed.

(** C6 (as stated) fails: seeding the contained read ["CGTA"], or the read
    ["TTTT"] that is not in the index, with index membership required ends
    the process; nothing is returned to the caller. *)
Lemma addSeed_fatal_returns_nothing :
  fatal_seed demo_overlapper "CGTA" = true
  ∧ addSeed "CGTA" true demo_new = Exited 1
  ∧ (¬ ∃ r, addSeed "CGTA" true demo_new = Returned r)
  ∧ fatal_seed demo_overlapper "TTTT" = true
  ∧ addSeed "TTTT" true demo_new = Exited 1
  ∧ (¬ ∃ r, addSeed "TTTT" true demo_new = Returned r).
Proof.
  repeat split; try reflexivity; intros [r Hr]; discriminate Hr.
Qed.

(** ** No node is enqueued under a visited key *)

(** Each node of [new] was unvisited at the moment it was pushed: its key
    is neither visited at [c] nor the key of a node pushed before it. *)
Lemma Pushes_at_push_time c c' new i n :
  Pushes c c' new → new !! i = Some n →
  key n ∉ m_usedIndex c ∪ list_to_set (key <$> take i new).
Proof.
  intros Hp Hi. pose proof (pu_nodup _ _ _ Hp) as Hnd.
  rewrite <- (take_drop_middle new i n Hi), fmap_app in Hnd.
  apply NoDup_app in Hnd as (_ & Hdisj & _).
  intros Hin. apply elem_of_union in Hin as [Hin|Hin].
  - by apply (pu_fresh _ _ _ Hp n); [eapply list_elem_of_lookup_2|].
  - apply elem_of_list_to_set in Hin. apply (Hdisj _ Hin).
    csimpl. apply elem_of_cons. by left.
Qed.

(** C7: in every turn of [run] that expands a node, a block whose canonical
    key is already visited leaves the builder as it is, and the nodes the
    turn appends to the queue each had an unvisited key at the moment of
    the push (the key was not visited when the turn began and is not the key
    of a node pushed earlier in the turn).  Over a whole [run] the same
    holds of everything pushed: no node is enqueued under a key that was
    visited when the run began, however the overlap graph loops back. *)
Theorem run_enqueues_only_unvisited max c :
  (∀ node block,
     lower (getCanonicalInterval block) ∈ m_usedIndex c →
     expandBlock node c block = c)
  ∧ (∀ c', run_turn max c = NextTurn c' →
       ∃ node rest new,
         m_queue c = node :: rest
         ∧ m_queue c' = rest ++ new
         ∧ m_usedIndex c' = m_usedIndex c ∪ list_to_set (key <$> new)
         ∧ ∀ i n, new !! i = Some n →
             key n ∉ m_usedIndex c ∪ list_to_set (key <$> take i new))
  ∧ (∃ new,
       pushLog (run max c) = pushLog c ++ new
       ∧ m_usedIndex (run max c) = m_usedIndex c ∪ list_to_set (key <$> new)
       ∧ ∀ i n, new !! i = Some n →
           key n ∉ m_usedIndex c ∪ list_to_set (key <$> take i new)).
Proof.
  split; [|split].
  - intros node block. apply expandBlock_visited.
  - intros c' Hturn.
    destruct (run_turn_cases max c)
      as [[_ H] | [(_ & _ & H) | (node & rest & new & c1 & Hq & Hle & H & Hexp)]];
      rewrite H in Hturn; try discriminate.
    injection Hturn as ->. exists node, rest, new.
    split; [done|]. split; [apply (exp_queue _ _ _ _ _ Hexp)|].
    split; [apply (exp_used _ _ _ _ _ Hexp)|].
    intros i n Hi.
    destruct (run_turn_pushes _ _ _ H) as [new' Hp].
    assert (new' = new) as ->.
    { pose proof (pu_log _ _ _ Hp) as E1.
      rewrite (exp_log _ _ _ _ _ Hexp) in E1. simpl in E1.
      by apply app_inv_head in E1. }
    by eapply Pushes_at_push_time.
  - destruct (run_pushes max c) as [new Hp]. exists new.
    split; [apply (pu_log _ _ _ Hp)|]. split; [apply (pu_used _ _ _ Hp)|].
    intros i n Hi. by eapply Pushes_at_push_time.
Qed.

(** The overlap graph of the demo index has the cycle 4 - 7 - 4; the run
    pushes the neighbour once and never pushes the seed again. *)
Example demo_cycle_not_reenqueued :
  pushLog (run 10 demo_seeded) = [demo_seed; demo_neighbour]
  ∧ m_outCluster (run 10 demo_seeded) = [demo_seed; demo_neighbour]
  ∧ getOutput (run 10 demo_seeded) = [demo_seed; demo_neighbour].
Proof. by vm_compute. Qed.

(** ** The log of pushes over the life of a builder *)

Lemma log_visited_new O mo : log_visited (ReadCluster_new O mo).
Proof. intros n Hn. by apply elem_of_nil in Hn. Qed.

Lemma log_visited_push k n c :
  k = key n → log_visited c → log_visited (insert_and_push k n c).
Proof.
  intros -> Hc n' Hn'. simpl in *.
  apply elem_of_app in Hn' as [Hn'|Hn'].
  - apply elem_of_union_r. by apply Hc.
  - apply list_elem_of_singleton in Hn' as ->. set_solver.
Qed.

Lemma log_visited_pushes c c' new :
  Pushes c c' new → log_visited c → log_visited c'.
Proof.
  intros Hp Hc n Hn. rewrite (pu_log _ _ _ Hp) in Hn.
  rewrite (pu_used _ _ _ Hp).
  apply elem_of_app in Hn as [Hn|Hn].
  - apply elem_of_union_l. by apply Hc.
  - apply elem_of_union_r, elem_of_list_to_set. by apply list_elem_of_fmap_2.
Qed.

Lemma do_call_log_visited call c c' :
  do_call call c = Returned c' → log_visited c → log_visited c'.
Proof.
  destruct call as [s b|max]; simpl.
  - destruct (addSeed_cases s b c)
      as [(_ & _ & H) | [(_ & _ & H) | [(_ & _ & _ & H) | (_ & _ & H)]]];
      rewrite H; try discriminate.
    + by intros [= <-].
    + intros [= <-]. by apply log_visited_push.
  - intros [= <-]. destruct (run_pushes max c) as [new Hp].
    by eapply log_visited_pushes.
Qed.

Lemma do_calls_log_visited calls c c' :
  do_calls calls c = Returned c' → log_visited c → log_visited c'.
Proof.
  revert c. induction calls as [|call calls IH]; intros c; simpl.
  - by intros [= <-].
  - destruct (do_call call c) as [c1|status] eqn:Hcall; [|discriminate].
    intros Hcalls Hc. apply (IH c1); [done|].
    by eapply do_call_log_visited.
Qed.

(** C3 (as amended): on a builder that has gone through any sequence of
    [addSeed] and [run] calls, the nodes a further [run] pushes have keys
    that differ from each other and from every key pushed before, by a seed
    or by an expansion; so [run] pushes a key at most once in the life of the
    builder, and never a key that was seeded.  ([addSeed] itself pushes its
    node whatever has been pushed before.) *)
Theorem run_pushes_fresh_keys O mo calls c max :
  do_calls calls (ReadCluster_new O mo) = Returned c →
  ∃ new,
    pushLog (run max c) = pushLog c ++ new
    ∧ NoDup (key <$> new)
    ∧ ∀ n, n ∈ new → key n ∉ key <$> pushLog c.
Proof.
  intros Hcalls.
  pose proof (do_calls_log_visited _ _ _ Hcalls (log_visited_new O mo)) as Hlog.
  destruct (run_pushes max c) as [new Hp]. exists new.
  split; [apply (pu_log _ _ _ Hp)|]. split; [apply (pu_nodup _ _ _ Hp)|].
  intros n Hn Hin. apply list_elem_of_fmap in Hin as (n' & Hk & Hn').
  apply (pu_fresh _ _ _ Hp n Hn). rewrite Hk. by apply Hlog.
Qed.

Lemma run_pushes_fresh_keys_witness :
  ∃ new,
    pushLog (run 10 demo_seeded) = pushLog demo_seeded ++ new
    ∧ NoDup (key <$> new)
    ∧ ∀ n, n ∈ new → key n ∉ key <$> pushLog demo_seeded.
Proof.
  apply (run_pushes_fresh_keys demo_overlapper 3
           [CallAddSeed "ACGTACGT" true] demo_seeded 10).
  vm_compute. reflexivity.
Defined.

(** C3 (as stated) fails: seeding the same read twice pushes its key
    twice. *)
Lemma addSeed_twice_enqueues_twice :
  ∃ c,
    do_calls [CallAddSeed "ACGTACGT" true; CallAddSeed "ACGTACGT" true]
             demo_new = Returned c
    ∧ m_queue c = [demo_seed; demo_seed]
    ∧ pushLog c = [demo_seed; demo_seed]
    ∧ key <$> pushLog c = [4%Z; 4%Z]
    ∧ ¬ NoDup (key <$> pushLog c).
Proof.
  eexists. split; [by vm_compute|]. repeat split.
  simpl. intros Hnd. apply NoDup_cons in Hnd as [Hnotin _].
  apply Hnotin. apply elem_of_cons. by left.
Qed.

(** ** Validity of the intervals in the output *)

Lemma nodes_valid_turn max c c1 :
  blocks_valid (m_pOverlapper c) → run_turn max c = NextTurn c1 →
  nodes_valid c → nodes_valid c1.
Proof.
  intros Hblocks Hturn [Hq Ho].
  destruct (run_turn_cases max c)
    as [[_ H] | [(_ & _ & H) | (node & rest & new & c' & Hqc & Hle & H & Hexp)]];
    rewrite H in Hturn; try discriminate.
  injection Hturn as ->. rewrite Hqc in Hq.
  apply Forall_cons in Hq as [Hnode Hrest].
  split.
  - rewrite (exp_queue _ _ _ _ _ Hexp). simpl.
    apply Forall_app. split; [done|]. apply Forall_forall. intros n Hn.
    destruct (exp_from_block _ _ _ _ _ Hexp n Hn) as (b & Hb & -> & _).
    by eapply Hblocks.
  - rewrite (exp_out _ _ _ _ _ Hexp). simpl.
    apply Forall_app. split; [done|]. by constructor.
Qed.

Lemma nodes_valid_run max c :
  blocks_valid (m_pOverlapper c) → nodes_valid c → nodes_valid (run max c).
Proof.
  apply (run_rel_ind max (λ c c',
    blocks_valid (m_pOverlapper c) → nodes_valid c → nodes_valid c')); clear c.
  - done.
  - intros c _ _ _ _. split; constructor.
  - intros c c1 c' Hturn IH Hblocks Hc. apply IH.
    + destruct (run_turn_pushes _ _ _ Hturn) as [new Hp].
      by rewrite (pu_overlapper _ _ _ Hp).
    + by eapply nodes_valid_turn.
Qed.

Lemma do_call_nodes_valid call c c' :
  blocks_valid (m_pOverlapper c) →
  enqueues_invalid (m_pOverlapper c) call = false →
  do_call call c = Returned c' →
  nodes_valid c → nodes_valid c' ∧ m_pOverlapper c' = m_pOverlapper c.
Proof.
  intros Hblocks Hcall. destruct call as [s b|max]; simpl in *.
  - destruct (addSeed_cases s b c)
      as [(_ & _ & H) | [(_ & _ & H) | [(_ & _ & _ & H) | (Hs & Hb & H)]]];
      rewrite H; try discriminate.
    + by intros [= <-].
    + intros [= <-] [Hq Ho]. split; [|done]. split; [|done]. simpl.
      apply Forall_app. split; [done|]. constructor; [|done]. simpl.
      rewrite Hs in Hcall. simpl in Hcall.
      destruct Hb as [-> | Hv]; [|done].
      simpl in Hcall. by apply negb_false_iff in Hcall.
  - intros [= <-] Hc. split; [by apply nodes_valid_run|].
    destruct (run_pushes max c) as [new Hp]. apply (pu_overlapper _ _ _ Hp).
Qed.

Lemma do_calls_nodes_valid calls c c' :
  blocks_valid (m_pOverlapper c) →
  Forall (λ call, enqueues_invalid (m_pOverlapper c) call = false) calls →
  do_calls calls c = Returned c' →
  nodes_valid c → nodes_valid c'.
Proof.
  revert c. induction calls as [|call calls IH]; intros c Hblocks Hcalls; simpl.
  - by intros [= <-].
  - apply Forall_cons in Hcalls as [Hcall Hcalls].
    destruct (do_call call c) as [c1|status] eqn:Hdo; [|discriminate].
    intros Hrest Hc.
    destruct (do_call_nodes_valid _ _ _ Hblocks Hcall Hdo Hc) as [Hc1 HO].
    apply (IH c1); by rewrite ?HO.
Qed.

(** C4 (as amended): if the overlapper reports only blocks with valid
    canonical intervals, and no seed was let into the queue with an empty
    interval (no [addSeed] with index membership not required on a
    sequence that is no substring and is absent from the index), then after
    any sequence of [addSeed] and [run] calls every node of the output has a
    valid interval. *)
Theorem output_intervals_valid O mo calls c :
  blocks_valid O →
  Forall (λ call, enqueues_invalid O call = false) calls →
  do_calls calls (ReadCluster_new O mo) = Returned c →
  Forall (λ n, isValid (interval n) = true) (m_outCluster c)
  ∧ Forall (λ n, isValid (interval n) = true) (getOutput c).
Proof.
  intros Hblocks Hcalls Hdo.
  assert (nodes_valid c) as [_ Ho].
  { by apply (do_calls_nodes_valid calls (ReadCluster_new O mo)). }
  split; [done|]. rewrite Forall_forall in Ho |- *.
  intros n Hn. by apply Ho, getOutput_sub.
Qed.

Lemma demo_blocks_valid : blocks_valid demo_overlapper.
Proof.
  intros r m b. simpl.
  destruct (String.eqb (SeqRecord_seq r) "ACGTACGT");
    [|destruct (String.eqb (SeqRecord_seq r) "ACGTACGTTT")];
    intros Hb.
  - by apply list_elem_of_singleton in Hb as ->.
  - by apply list_elem_of_singleton in Hb as ->.
  - by apply elem_of_nil in Hb.
Defined.

Lemma output_intervals_valid_witness :
  Forall (λ n, isValid (interval n) = true)
         (m_outCluster (run 10 demo_seeded))
  ∧ Forall (λ n, isValid (interval n) = true)
           (getOutput (run 10 demo_seeded)).
Proof.
  apply (output_intervals_valid demo_overlapper 3
           [CallAddSeed "ACGTACGT" true; CallAddSeed "CGTA" false; CallRun 10]).
  - exact demo_blocks_valid.
  - repeat constructor.
  - vm_compute. reflexivity.
Defined.

(** C4 (as stated) fails: a read that is no substring and is absent from
    the index, seeded with index membership not required, is enqueued with
    its empty interval and reaches the output. *)
Lemma unindexed_seed_reaches_output :
  isSubstring (alignReadDuplicate demo_overlapper
                 (mkSeqRecord "cluster-seed" "TTTT")) = false
  ∧ updateInterval demo_overlapper (findInterval demo_overlapper "TTTT") "$"
    = mkBWTInterval 5 4
  ∧ ∃ c,
      do_calls [CallAddSeed "TTTT" false; CallRun 10] demo_new = Returned c
      ∧ m_outCluster c = [mkClusterNode "TTTT" (mkBWTInterval 5 4) false]
      ∧ getOutput c = [mkClusterNode "TTTT" (mkBWTInterval 5 4) false]
      ∧ ¬ Forall (λ n, isValid (interval n) = true) (getOutput c).
Proof.
  split; [reflexivity|]. split; [reflexivity|].
  eexists. split; [by vm_compute|]. split; [reflexivity|]. split; [reflexivity|].
  intros Hall. apply Forall_cons in Hall as [Hv _]. discriminate Hv.
Qed.

(** ** The worked example *)

(** C9: one seed ["ACGTACGT"] that is no substring and sits at [4,4], index
    membership required, minimum overlap 3, and an overlapper that reports
    exactly one block, at [7,7], for the seed: [run(1)] ends with an empty
    output, because the bound check fires once the neighbour is found.  The
    first turn passes the check (1 + 0 is not above 1), moves the seed to the
    output, marks key 7 and enqueues the neighbour; the second turn finds
    1 + 1 > 1, empties queue and output and returns, the visited set keeping
    both keys. *)
Theorem worked_example_bound_one O hit :
  isSubstring (alignReadDuplicate O (mkSeqRecord "cluster-seed" "ACGTACGT"))
    = false →
  updateInterval O (findInterval O "ACGTACGT") "$" = mkBWTInterval 4 4 →
  overlapRead O (mkSeqRecord "cluster" "ACGTACGT") 3 = [hit] →
  getCanonicalInterval hit = mkBWTInterval 7 7 →
  ∃ n n' c ck,
    n = mkClusterNode "ACGTACGT" (mkBWTInterval 4 4) false
    ∧ n' = node_of_block n hit
    ∧ interval n' = mkBWTInterval 7 7
    ∧ addSeed "ACGTACGT" true (ReadCluster_new O 3) = Returned (n, c)
    ∧ m_queue c = [n]
    ∧ m_outCluster c = []
    ∧ m_usedIndex c = {[ 4%Z ]}
    ∧ turn_start 1 1 c = Some ck
    ∧ m_queue ck = [n']
    ∧ m_outCluster ck = [n]
    ∧ m_usedIndex ck = {[ 7%Z ]} ∪ {[ 4%Z ]}
    ∧ 1 < length (m_queue ck) + length (m_outCluster ck)
    ∧ run_aborts 1 c
    ∧ run 1 c = discarded ck
    ∧ m_queue (run 1 c) = []
    ∧ m_outCluster (run 1 c) = []
    ∧ m_usedIndex (run 1 c) = {[ 7%Z ]} ∪ {[ 4%Z ]}
    ∧ getOutput (run 1 c) = [].
Proof.
  intros Hsub Hint Hhits Hhit.
  set (n := mkClusterNode "ACGTACGT" (mkBWTInterval 4 4) false).
  set (c := insert_and_push 4 n (ReadCluster_new O 3)).
  set (ck := insert_and_push (lower (getCanonicalInterval hit))
               (node_of_block n hit)
               (mkReadCluster O 3 (m_usedIndex c) [] [n] (pushLog c))).
  assert (run_turn 1 c = NextTurn ck) as Hturn.
  { rewrite (run_turn_expand 1 c n []); [|done|simpl; lia].
    simpl. rewrite Hhits. simpl.
    rewrite expandBlock_fresh; [done|]. rewrite Hhit. simpl. set_solver. }
  assert (turn_start 1 1 c = Some ck) as Hstart.
  { cbn [turn_start]. by rewrite Hturn. }
  assert (m_usedIndex ck = {[ 7%Z ]} ∪ {[ 4%Z ]}) as Hused.
  { unfold ck. simpl. rewrite Hhit. simpl. set_solver. }
  assert (run 1 c = discarded ck) as Hrun.
  { rewrite run_unfold, Hturn, run_unfold.
    rewrite run_turn_exceeded; [done | done | simpl; lia]. }
  exists n, (node_of_block n hit), c, ck.
  split; [done|]. split; [done|]. split; [done|].
  split. { unfold addSeed. simpl. rewrite Hsub, Hint. simpl. reflexivity. }
  split; [done|]. split; [done|]. split; [simpl; set_solver|].
  split; [done|]. split; [done|]. split; [done|]. split; [done|].
  split; [simpl; lia|].
  split. { exists 1, ck. split; [done|]. split; [done | simpl; lia]. }
  rewrite Hrun. by repeat split.
Qed.

Lemma worked_example_bound_one_witness :
  ∃ n n' c ck,
    n = mkClusterNode "ACGTACGT" (mkBWTInterval 4 4) false
    ∧ n' = node_of_block n (mkOverlapBlock (mkBWTInterval 7 7)
                                           (λ s, (s ++ "TT")%string) false)
    ∧ interval n' = mkBWTInterval 7 7
    ∧ addSeed "ACGTACGT" true (ReadCluster_new demo_overlapper 3)
      = Returned (n, c)
    ∧ m_queue c = [n]
    ∧ m_outCluster c = []
    ∧ m_usedIndex c = {[ 4%Z ]}
    ∧ turn_start 1 1 c = Some ck
    ∧ m_queue ck = [n']
    ∧ m_outCluster ck = [n]
    ∧ m_usedIndex ck = {[ 7%Z ]} ∪ {[ 4%Z ]}
    ∧ 1 < length (m_queue ck) + length (m_outCluster ck)
    ∧ run_aborts 1 c
    ∧ run 1 c = discarded ck
    ∧ m_queue (run 1 c) = []
    ∧ m_outCluster (run 1 c) = []
    ∧ m_usedIndex (run 1 c) = {[ 7%Z ]} ∪ {[ 4%Z ]}
    ∧ getOutput (run 1 c) = [].
Proof.
  apply (worked_example_bound_one demo_overlapper
           (mkOverlapBlock (mkBWTInterval 7 7)
                           (λ s, (s ++ "TT")%string) false));
    reflexivity.
Defined.

(** ** The size of the output *)

Lemma run_out_bound max c :
  length (m_outCluster c) ≤ max → length (m_outCluster (run max c)) ≤ max.
Proof.
  apply (run_rel_ind max (λ c c',
    length (m_outCluster c) ≤ max → length (m_outCluster c') ≤ max)); clear c.
  - done.
  - intros c _ _ _. simpl. lia.
  - intros c c1 c' Hturn IH _. apply IH.
    by apply run_turn_next_out in Hturn as [_ ?].
Qed.

Lemma seed_calls_out seeds c c' :
  do_calls (seed_calls seeds) c = Returned c' →
  m_outCluster c' = m_outCluster c.
Proof.
  revert c. induction seeds as [|[s b] seeds IH]; intros c; simpl.
  - by intros [= <-].
  - destruct (addSeed_cases s b c)
      as [(_ & _ & H) | [(_ & _ & H) | [(_ & _ & _ & H) | (_ & _ & H)]]];
      rewrite H; try discriminate.
    + apply IH.
    + intros Hrest. by rewrite (IH _ Hrest).
Qed.

(** C10 (as amended): when [run(max)] is called on a builder whose
    accumulated output holds at most [max] nodes (as it does on a builder
    that has not run before, whose output is empty), then on return, whether
    the run was cut short or ran to the end, the accumulated output holds at
    most [max] nodes, and so does the list [getOutput] returns. *)
Theorem run_output_within_bound max c :
  length (m_outCluster c) ≤ max →
  length (m_outCluster (run max c)) ≤ max
  ∧ length (getOutput (run max c)) ≤ max.
Proof.
  intros Hbefore.
  assert (length (m_outCluster (run max c)) ≤ max) as Hout
    by by apply run_out_bound.
  split; [done|]. etransitivity; [apply getOutput_length | done].
Qed.

Lemma run_output_within_bound_witness :
  length (m_outCluster (run 2 demo_expanded)) ≤ 2
  ∧ length (getOutput (run 2 demo_expanded)) ≤ 2.
Proof. apply (run_output_within_bound 2 demo_expanded). simpl. lia. Defined.

(** C10 (as stated) fails: the bound check sits inside the loop, so a
    [run] on a builder whose queue is empty returns at once and keeps the
    output of an earlier run, however small the new bound.  After
    [addSeed], [run(10)] the output holds two nodes, and it still does after
    [run(0)]. *)
Lemma second_run_keeps_larger_output :
  do_calls [CallAddSeed "ACGTACGT" true; CallRun 10] demo_new
  = Returned demo_done
  ∧ m_outCluster (run 0 demo_done) = [demo_seed; demo_neighbour]
  ∧ getOutput (run 0 demo_done) = [demo_seed; demo_neighbour]
  ∧ ¬ length (m_outCluster (run 0 demo_done)) ≤ 0
  ∧ ¬ length (getOutput (run 0 demo_done)) ≤ 0.
Proof.
  split; [by vm_compute|]. split; [reflexivity|]. split; [reflexivity|].
  split; simpl; lia.
Qed.

(** * Further properties of the builder *)

(** ** The trace of a run *)

Lemma fold_expand_used_mono node blocks c :
  m_usedIndex c ⊆ m_usedIndex (fold_left (expandBlock node) blocks c).
Proof.
  destruct (expansion_spec node blocks c) as [new Hexp].
  rewrite (exp_used _ _ _ _ _ Hexp). set_solver.
Qed.

Lemma fold_expand_marks node blocks c b :
  b ∈ blocks →
  lower (getCanonicalInterval b)
  ∈ m_usedIndex (fold_left (expandBlock node) blocks c).
Proof.
  revert c. induction blocks as [|b0 blocks IH]; intros c Hb; simpl.
  - by apply elem_of_nil in Hb.
  - apply elem_of_cons in Hb as [->|Hb]; [|by apply IH].
    apply fold_expand_used_mono.
    destruct (decide (lower (getCanonicalInterval b0) ∈ m_usedIndex c)).
    + by rewrite expandBlock_visited.
    + rewrite expandBlock_fresh by done. simpl. set_solver.
Qed.

Lemma Expansion_node_of_block node blocks c c' new n :
  Expansion node blocks c c' new → n ∈ new →
  ∃ b, b ∈ blocks ∧ n = node_of_block node b.
Proof.
  intros Hexp Hn.
  destruct (exp_from_block _ _ _ _ _ Hexp n Hn) as (b & Hb & Hi & Hs & Hr).
  exists b. split; [done|]. destruct n; simpl in *. by subst.
Qed.

(** A turn that runs the body, in full. *)
Lemma run_turn_next_inv max c c1 :
  run_turn max c = NextTurn c1 →
  ∃ node rest new,
    m_queue c = node :: rest
    ∧ length (m_queue c) + length (m_outCluster c) ≤ max
    ∧ m_queue c1 = rest ++ new
    ∧ m_outCluster c1 = m_outCluster c ++ [node]
    ∧ Pushes c c1 new
    ∧ (∀ n, n ∈ new → ∃ b, b ∈ hits_of c node ∧ n = node_of_block node b)
    ∧ (∀ b, b ∈ hits_of c node →
            lower (getCanonicalInterval b) ∈ m_usedIndex c1).
Proof.
  intros Hturn.
  destruct (run_turn_cases max c)
    as [[_ H] | [(_ & _ & H) | (node & rest & new & c' & Hq & Hle & H & Hexp)]];
    rewrite H in Hturn; try discriminate.
  injection Hturn as ->. exists node, rest, new.
  split; [done|]. split; [done|].
  split; [apply (exp_queue _ _ _ _ _ Hexp)|].
  split; [apply (exp_out _ _ _ _ _ Hexp)|].
  split; [|split].
  - destruct Hexp as [E1 E2 E3 E4 E5 E6 E7 E8 E9]. by split.
  - intros n Hn. by eapply Expansion_node_of_block.
  - intros b Hb. rewrite (run_turn_expand max c node rest Hq Hle) in H.
    injection H as <-. by apply fold_expand_marks.
Qed.

Lemma turn_start_trace k max c ck :
  turn_start k max c = Some ck →
  ∃ expanded new, Trace c ck expanded new ∧ length expanded = k.
Proof.
  revert c. induction k as [|k IH]; intros c Hk; simpl in Hk.
  - injection Hk as ->. exists [], []. split; [|done].
    split; rewrite ?app_nil_r; try done.
    + by apply Pushes_nil.
    + intros n Hn. by apply elem_of_nil in Hn.
    + intros parent b Hp. by apply elem_of_nil in Hp.
  - destruct (run_turn max c) as [c'|c'|c1] eqn:Hturn; try discriminate.
    destruct (run_turn_next_inv _ _ _ Hturn)
      as (node & rest & new1 & Hq & Hle & Hq1 & Ho1 & Hp1 & Hfrom & Hmarks).
    destruct (IH c1 Hk) as (exp2 & new2 & [T1 T2 T3 T4 T5] & Hlen).
    assert (∀ parent, hits_of c1 parent = hits_of c parent) as Hhits.
    { intros parent. unfold hits_of.
      by rewrite (pu_overlapper _ _ _ Hp1), (pu_minOverlap _ _ _ Hp1). }
    exists (node :: exp2), (new1 ++ new2). split; [|simpl; by rewrite Hlen].
    split.
    + rewrite T1, Ho1. by rewrite <- app_assoc.
    + simpl. rewrite T2, Hq1, Hq. simpl. by rewrite <- app_assoc.
    + by eapply Pushes_trans.
    + intros n Hn. apply elem_of_app in Hn as [Hn|Hn].
      * destruct (Hfrom n Hn) as (b & Hb & ->).
        exists node, b. split; [by apply elem_of_cons; left | done].
      * destruct (T4 n Hn) as (parent & b & Hparent & Hb & ->).
        exists parent, b. rewrite Hhits in Hb.
        split; [by apply elem_of_cons; right | done].
    + intros parent b Hparent Hb.
      apply elem_of_cons in Hparent as [->|Hparent].
      * rewrite (pu_used _ _ _ T3). apply elem_of_union_l. by apply Hmarks.
      * apply (T5 parent b Hparent). by rewrite Hhits.
Qed.

Lemma turn_start_out_le k max c ck :
  turn_start (S k) max c = Some ck → length (m_outCluster ck) ≤ max.
Proof.
  revert c. induction k as [|k IH]; intros c Hk; simpl in Hk;
    destruct (run_turn max c) as [c'|c'|c1] eqn:Hturn; try discriminate.
  - injection Hk as <-. by apply run_turn_next_out in Hturn as [_ ?].
  - by apply (IH c1).
Qed.

Lemma turn_start_mono k max max' c ck :
  max ≤ max' → turn_start k max c = Some ck → turn_start k max' c = Some ck.
Proof.
  intros Hle. revert c. induction k as [|k IH]; intros c Hk; simpl in *; [done|].
  destruct (run_turn max c) as [c'|c'|c1] eqn:Hturn; try discriminate.
  destruct (run_turn_cases max c)
    as [[_ H] | [(_ & _ & H) | (node & rest & new & c' & Hq & Hb & H & _)]];
    rewrite H in Hturn; try discriminate.
  injection Hturn as ->.
  rewrite (run_turn_expand max c node rest Hq Hb) in H. injection H as <-.
  rewrite (run_turn_expand max' c node rest Hq); [|lia]. by apply IH.
Qed.

(** ** How the loop is left *)

Lemma run_at_empty k max c ck :
  turn_start k max c = Some ck → m_queue ck = [] → run max c = ck.
Proof.
  intros Hk Hq. rewrite (turn_start_run _ _ _ _ Hk), run_unfold.
  by rewrite run_turn_empty.
Qed.

Lemma run_at_exceeded k max c ck :
  turn_start k max c = Some ck → m_queue ck ≠ [] →
  max < length (m_queue ck) + length (m_outCluster ck) →
  run max c = discarded ck.
Proof.
  intros Hk Hq Hlt. rewrite (turn_start_run _ _ _ _ Hk), run_unfold.
  by rewrite run_turn_exceeded.
Qed.

Lemma run_completes_or_aborts max c : run_completes max c ∨ run_aborts max c.
Proof.
  apply (run_rel_ind max (λ c _, run_completes max c ∨ run_aborts max c));
    clear c.
  - intros c Hq. left. by exists 0, c.
  - intros c Hq Hlt. right. by exists 0, c.
  - intros c c1 c' Hturn [(k & ck & Hk & Hq) | (k & ck & Hk & Hq & Hlt)].
    + left. exists (S k), ck. simpl. by rewrite Hturn.
    + right. exists (S k), ck. simpl. by rewrite Hturn.
Qed.

Lemma run_queue_empty max c : m_queue (run max c) = [].
Proof.
  apply (run_rel_ind max (λ _ c', m_queue c' = [])); clear c; done.
Qed.

Lemma Trace_count c ck expanded new :
  Trace c ck expanded new →
  length (m_outCluster ck) + length (m_queue ck)
  = length (m_outCluster c) + length (m_queue c) + length new
  ∧ size (m_usedIndex ck ∖ m_usedIndex c) = length new.
Proof.
  intros [T1 T2 T3 _ _]. split.
  - apply (f_equal length) in T2. rewrite T1. rewrite !length_app in *. lia.
  - rewrite (pu_used _ _ _ T3).
    assert ((m_usedIndex c ∪ list_to_set (key <$> new)) ∖ m_usedIndex c
            = list_to_set (C := gset Z) (key <$> new)) as ->.
    { pose proof (pu_fresh _ _ _ T3) as Hfresh.
      apply set_eq. intros k. rewrite elem_of_difference, elem_of_union.
      rewrite elem_of_list_to_set. split; [tauto|]. intros Hk.
      split; [by right|]. apply list_elem_of_fmap in Hk as (n & -> & Hn).
      by apply Hfresh. }
    rewrite size_list_to_set by apply (pu_nodup _ _ _ T3).
    by rewrite length_fmap.
Qed.

Lemma getOutput_nil_iff c : getOutput c = [] ↔ m_outCluster c = [].
Proof.
  split.
  - intros Hnil. destruct (m_outCluster c) as [|n out] eqn:Hout; [done|].
    assert (interval n ∈ interval <$> getOutput c) as Hin.
    { unfold getOutput. apply std_unique_covers.
      rewrite std_sort_Permutation, Hout. apply elem_of_cons. by left. }
    rewrite Hnil in Hin. by apply elem_of_nil in Hin.
  - intros Hnil. unfold getOutput. by rewrite Hnil.
Qed.

(** X1: a builder is spent after [run]: the queue is empty on return, and
    a further [run], whatever its bound, hands the builder back as it is
    (the output is kept even when it holds more nodes than the new
    bound). *)
Theorem run_again_changes_nothing max max' c :
  m_queue (run max c) = [] ∧ run max' (run max c) = run max c.
Proof.
  split; [apply run_queue_empty|].
  rewrite (run_unfold max'). by rewrite run_turn_empty by apply run_queue_empty.
Qed.

(** ** Who pushed what *)

Lemma fresh_blocks_elem used blocks b :
  b ∈ fresh_blocks used blocks → b ∈ blocks.
Proof.
  revert used. induction blocks as [|b0 blocks IH]; intros used; simpl; [done|].
  destruct (decide (lower (getCanonicalInterval b0) ∈ used)); intros Hb.
  - apply elem_of_cons. right. by eapply IH.
  - apply elem_of_cons in Hb as [->|Hb]; apply elem_of_cons;
      [by left | right; by eapply IH].
Qed.

(** The [for] loop of [run], as a whole: it pushes the nodes built from the
    fresh blocks, in the order of the block list. *)
Lemma fold_expand_fresh node blocks c :
  let c' := fold_left (expandBlock node) blocks c in
  let g := node_of_block node <$> fresh_blocks (m_usedIndex c) blocks in
  m_queue c' = m_queue c ++ g
  ∧ pushLog c' = pushLog c ++ g
  ∧ m_usedIndex c' = m_usedIndex c ∪ list_to_set (key <$> g)
  ∧ m_outCluster c' = m_outCluster c
  ∧ m_pOverlapper c' = m_pOverlapper c
  ∧ m_minOverlap c' = m_minOverlap c.
Proof.
  revert c. induction blocks as [|b blocks IH]; intros c; simpl.
  - rewrite !app_nil_r. repeat split. set_solver.
  - destruct (decide (lower (getCanonicalInterval b) ∈ m_usedIndex c))
      as [Hin|Hout].
    + rewrite expandBlock_visited by done. apply IH.
    + rewrite expandBlock_fresh by done.
      destruct (IH (insert_and_push (lower (getCanonicalInterval b))
                      (node_of_block node b) c))
        as (I1 & I2 & I3 & I4 & I5 & I6).
      unfold node_of_block in I1, I2, I3, I4, I5, I6 at 1. simpl in *.
      split; [by rewrite I1, <- app_assoc|].
      split; [by rewrite I2, <- app_assoc|].
      split; [|done]. rewrite I3. unfold key at 3. simpl. set_solver.
Qed.

(** A turn that runs the body, exactly. *)
Lemma run_turn_next_exact max c c1 :
  run_turn max c = NextTurn c1 →
  ∃ node rest,
    m_queue c = node :: rest
    ∧ m_queue c1
      = rest ++ (node_of_block node
                   <$> fresh_blocks (m_usedIndex c) (hits_of c node))
    ∧ pushLog c1
      = pushLog c ++ (node_of_block node
                        <$> fresh_blocks (m_usedIndex c) (hits_of c node))
    ∧ m_usedIndex c1
      = m_usedIndex c
        ∪ list_to_set (key <$> (node_of_block node
                        <$> fresh_blocks (m_usedIndex c) (hits_of c node)))
    ∧ m_outCluster c1 = m_outCluster c ++ [node]
    ∧ m_pOverlapper c1 = m_pOverlapper c
    ∧ m_minOverlap c1 = m_minOverlap c.
Proof.
  intros Hturn.
  destruct (run_turn_cases max c)
    as [[_ H] | [(_ & _ & H) | (node & rest & new & c' & Hq & Hle & H & _)]];
    rewrite H in Hturn; try discriminate.
  injection Hturn as ->.
  rewrite (run_turn_expand max c node rest Hq Hle) in H. injection H as <-.
  exists node, rest. split; [done|].
  apply (fold_expand_fresh node (hits_of c node)
           (mkReadCluster (m_pOverlapper c) (m_minOverlap c) (m_usedIndex c)
              rest (m_outCluster c ++ [node]) (pushLog c))).
Qed.

Lemma turn_start_lineage k max c ck :
  turn_start k max c = Some ck →
  ∃ expanded groups, Lineage c ck expanded groups.
Proof.
  revert c. induction k as [|k IH]; intros c Hk; simpl in Hk.
  - injection Hk as ->. exists [], []. split; simpl; rewrite ?app_nil_r;
      try done.
    set_solver.
  - destruct (run_turn max c) as [c'|c'|c1] eqn:Hturn; try discriminate.
    destruct (run_turn_next_exact _ _ _ Hturn)
      as (node & rest & Hq & Hq1 & Hl1 & Hu1 & Ho1 & HO & Hmo).
    set (g1 := node_of_block node
                 <$> fresh_blocks (m_usedIndex c) (hits_of c node)) in *.
    destruct (IH c1 Hk) as (exp2 & groups2 & [L1 L2 L3 L4 L5 L6 L7]).
    assert (∀ parent, hits_of c1 parent = hits_of c parent) as Hhits.
    { intros parent. unfold hits_of. by rewrite HO, Hmo. }
    exists (node :: exp2), (g1 :: groups2). split.
    + rewrite L1, Ho1. by rewrite <- app_assoc.
    + simpl. rewrite L2, Hq1, Hq. simpl. by rewrite <- app_assoc.
    + simpl. rewrite L3, Hl1. by rewrite <- app_assoc.
    + simpl. rewrite L4, Hu1, fmap_app, list_to_set_app_L. set_solver.
    + simpl. by rewrite L5.
    + intros [|j] parent Hj; simpl in *.
      * injection Hj as <-. by rewrite union_empty_r_L.
      * rewrite (L6 j parent Hj), Hhits, Hu1. do 3 f_equal.
        rewrite fmap_app, list_to_set_app_L. set_solver.
    + intros i n Hi. simpl in Hi. apply lookup_app_Some in Hi as [Hi|[Hge Hi]].
      * apply list_lookup_fmap_Some in Hi as (b & -> & Hb).
        exists 0, node, b. split; [done|]. split; [rewrite Hq; simpl; lia|].
        split; [|done]. eapply fresh_blocks_elem, list_elem_of_lookup_2, Hb.
      * destruct (L7 _ n Hi) as (j & parent & b & Hj & Hlt & Hb & ->).
        exists (S j), parent, b. split; [done|].
        rewrite Hq1, length_app in Hlt. rewrite Hq. simpl.
        split; [lia|]. by rewrite <- Hhits.
Qed.

(** X2: when [run] leaves the loop through the empty queue, the output is
    the earlier output, then the nodes that were waiting in the queue, then
    the nodes the run pushed, in the order of the pushes (they are what the
    run appends to the log of pushes).  Every node of the last two parts was
    expanded, in output order, and the pushed nodes are the pushes of these
    expansions one after the other: the expansion of a node pushes the nodes
    built from the blocks of its block list whose keys are fresh with
    respect to the keys visited before the run and the keys pushed by the
    expansions before it, in block-list order.  Hence every pushed node
    stands in the output strictly after the node whose block it was built
    from (breadth first).  The pushed nodes have pairwise distinct keys that
    were unvisited before the run, and the visited set gains exactly these
    keys. *)
Theorem run_completed_fifo max c :
  run_completes max c →
  ∃ groups,
    let new := concat groups in
    m_outCluster (run max c) = m_outCluster c ++ m_queue c ++ new
    ∧ pushLog (run max c) = pushLog c ++ new
    ∧ m_usedIndex (run max c) = m_usedIndex c ∪ list_to_set (key <$> new)
    ∧ NoDup (key <$> new)
    ∧ (∀ n, n ∈ new → key n ∉ m_usedIndex c)
    ∧ length groups = length (m_queue c ++ new)
    ∧ (∀ j parent, (m_queue c ++ new) !! j = Some parent →
         groups !! j
         = Some (node_of_block parent
                   <$> fresh_blocks
                         (m_usedIndex c
                          ∪ list_to_set (key <$> concat (take j groups)))
                         (hits_of c parent)))
    ∧ (∀ i n, new !! i = Some n →
         ∃ j parent b,
           (m_queue c ++ new) !! j = Some parent
           ∧ j < length (m_queue c) + i
           ∧ b ∈ hits_of c parent ∧ n = node_of_block parent b).
Proof.
  intros (k & ck & Hk & Hq). rewrite (run_at_empty _ _ _ _ Hk Hq).
  destruct (turn_start_lineage _ _ _ _ Hk)
    as (expanded & groups & [L1 L2 L3 L4 L5 L6 L7]).
  destruct (turn_start_trace _ _ _ _ Hk)
    as (expanded' & new' & [T1 T2 T3 _ _] & _).
  rewrite Hq, app_nil_r in L2. subst expanded.
  assert (new' = concat groups) as ->.
  { pose proof (pu_log _ _ _ T3) as E. rewrite L3 in E.
    by apply app_inv_head in E. }
  exists groups. simpl.
  split; [done|]. split; [done|]. split; [done|].
  split; [apply (pu_nodup _ _ _ T3)|]. split; [apply (pu_fresh _ _ _ T3)|].
  done.
Qed.

Lemma demo_run_completes : run_completes 10 demo_seeded.
Proof. exists 2, demo_done. split; [by vm_compute | reflexivity]. Defined.

Lemma demo_run_aborts : run_aborts 1 demo_seeded.
Proof.
  exists 1, demo_expanded. split; [by vm_compute|].
  split; [simpl; discriminate | simpl; lia].
Defined.

Lemma run_completed_fifo_witness :
  ∃ groups,
    let new := concat groups in
    m_outCluster (run 10 demo_seeded)
    = m_outCluster demo_seeded ++ m_queue demo_seeded ++ new
    ∧ pushLog (run 10 demo_seeded) = pushLog demo_seeded ++ new
    ∧ m_usedIndex (run 10 demo_seeded)
      = m_usedIndex demo_seeded ∪ list_to_set (key <$> new)
    ∧ NoDup (key <$> new)
    ∧ (∀ n, n ∈ new → key n ∉ m_usedIndex demo_seeded)
    ∧ length groups = length (m_queue demo_seeded ++ new)
    ∧ (∀ j parent, (m_queue demo_seeded ++ new) !! j = Some parent →
         groups !! j
         = Some (node_of_block parent
                   <$> fresh_blocks
                         (m_usedIndex demo_seeded
                          ∪ list_to_set (key <$> concat (take j groups)))
                         (hits_of demo_seeded parent)))
    ∧ (∀ i n, new !! i = Some n →
         ∃ j parent b,
           (m_queue demo_seeded ++ new) !! j = Some parent
           ∧ j < length (m_queue demo_seeded) + i
           ∧ b ∈ hits_of demo_seeded parent ∧ n = node_of_block parent b).
Proof. apply (run_completed_fifo 10 demo_seeded). exact demo_run_completes. Defined.

(** X3: raising the bound does not change a run that went through: if
    [run(max)] leaves the loop through the empty queue, then so does
    [run(max')] for every [max' ≥ max], with the same result. *)
Theorem run_bound_monotone max max' c :
  run_completes max c → max ≤ max' →
  run_completes max' c ∧ run max' c = run max c.
Proof.
  intros (k & ck & Hk & Hq) Hle.
  pose proof (turn_start_mono _ _ _ _ _ Hle Hk) as Hk'.
  split; [by exists k, ck|].
  by rewrite (run_at_empty _ _ _ _ Hk Hq), (run_at_empty _ _ _ _ Hk' Hq).
Qed.

Lemma run_bound_monotone_witness :
  run_completes 20 demo_seeded ∧ run 20 demo_seeded = run 10 demo_seeded.
Proof.
  apply (run_bound_monotone 10 20 demo_seeded); [exact demo_run_completes | lia].
Defined.

(** X4: for a builder with a non-empty queue, [getOutput] after [run] is
    the empty list exactly when the run was cut short by the bound check. *)
Theorem empty_output_iff_aborted max c :
  m_queue c ≠ [] →
  getOutput (run max c) = [] ↔ run_aborts max c.
Proof.
  intros Hq. split.
  - intros Hnil. apply getOutput_nil_iff in Hnil.
    destruct (run_completes_or_aborts max c) as [(k & ck & Hk & Hqk)|]; [|done].
    exfalso. rewrite (run_at_empty _ _ _ _ Hk Hqk) in Hnil.
    destruct (turn_start_trace _ _ _ _ Hk) as (expanded & new & [T1 T2 _ _ _] & _).
    rewrite Hqk, app_nil_r in T2. rewrite T1, T2 in Hnil.
    apply app_eq_nil in Hnil as [_ Hnil]. by apply app_eq_nil in Hnil as [? _].
  - intros (k & ck & Hk & Hqk & Hlt).
    by rewrite (run_at_exceeded _ _ _ _ Hk Hqk Hlt).
Qed.

Lemma empty_output_iff_aborted_witness :
  getOutput (run 1 demo_seeded) = [] ↔ run_aborts 1 demo_seeded.
Proof. apply (empty_output_iff_aborted 1 demo_seeded). simpl. discriminate. Defined.

(** X5: for a builder with a non-empty queue, [run(max)] is cut short
    exactly when the nodes it has to account for (the earlier output, the
    queue, and one node per key the run newly visits) number more than
    [max]. *)
Theorem run_aborts_iff_count max c :
  m_queue c ≠ [] →
  run_aborts max c ↔
  max < length (m_outCluster c) + length (m_queue c)
        + size (m_usedIndex (run max c) ∖ m_usedIndex c).
Proof.
  intros Hq. split.
  - intros (k & ck & Hk & Hqk & Hlt).
    rewrite (run_at_exceeded _ _ _ _ Hk Hqk Hlt). simpl.
    destruct (turn_start_trace _ _ _ _ Hk) as (expanded & new & Htr & _).
    destruct (Trace_count _ _ _ _ Htr) as [Hcount ->]. lia.
  - intros Hlt.
    destruct (run_completes_or_aborts max c) as [(k & ck & Hk & Hqk)|]; [|done].
    exfalso. rewrite (run_at_empty _ _ _ _ Hk Hqk) in Hlt.
    destruct (turn_start_trace _ _ _ _ Hk) as (expanded & new & Htr & Hlen).
    destruct (Trace_count _ _ _ _ Htr) as [Hcount Hsize].
    rewrite Hsize in Hlt. rewrite Hqk in Hcount. simpl in Hcount.
    destruct k as [|k].
    + simpl in Hk. injection Hk as ->. done.
    + apply turn_start_out_le in Hk. lia.
Qed.

Lemma run_aborts_iff_count_witness :
  run_aborts 1 demo_seeded ↔
  1 < length (m_outCluster demo_seeded) + length (m_queue demo_seeded)
      + size (m_usedIndex (run 1 demo_seeded) ∖ m_usedIndex demo_seeded).
Proof. apply (run_aborts_iff_count 1 demo_seeded). simpl. discriminate. Defined.

(** ** Invariants over sequences of calls *)

Lemma keys_visited_push n c :
  keys_visited c → keys_visited (insert_and_push (key n) n c).
Proof.
  intros Hc n' Hn'. simpl in *. rewrite <- app_assoc in Hn'.
  apply elem_of_app in Hn' as [Hn'|Hn'].
  - apply elem_of_union_r, Hc, elem_of_app. by left.
  - apply elem_of_cons in Hn' as [->|Hn']; [set_solver|].
    apply elem_of_union_r, Hc, elem_of_app. by right.
Qed.

Lemma keys_visited_turn max c c1 :
  run_turn max c = NextTurn c1 → keys_visited c → keys_visited c1.
Proof.
  intros Hturn Hc n Hn.
  destruct (run_turn_next_inv _ _ _ Hturn)
    as (node & rest & new & Hq & _ & Hq1 & Ho1 & Hp & _ & _).
  rewrite (pu_used _ _ _ Hp). rewrite Hq1, Ho1 in Hn.
  unfold keys_visited in Hc. rewrite Hq in Hc.
  rewrite !elem_of_app in Hn. destruct Hn as [[Hn|Hn]|[Hn|Hn]].
  - apply elem_of_union_l, Hc. apply elem_of_app. left.
    apply elem_of_cons. by right.
  - apply elem_of_union_r, elem_of_list_to_set. by apply list_elem_of_fmap_2.
  - apply elem_of_union_l, Hc. apply elem_of_app. by right.
  - apply list_elem_of_singleton in Hn as ->.
    apply elem_of_union_l, Hc. apply elem_of_app. left.
    apply elem_of_cons. by left.
Qed.

Lemma keys_visited_run max c : keys_visited c → keys_visited (run max c).
Proof.
  apply (run_rel_ind max (λ c c', keys_visited c → keys_visited c')); clear c.
  - done.
  - intros c _ _ _ n Hn. by apply elem_of_nil in Hn.
  - intros c c1 c' Hturn IH Hc. apply IH. by eapply keys_visited_turn.
Qed.

Lemma do_call_keys_visited call c c' :
  do_call call c = Returned c' → keys_visited c → keys_visited c'.
Proof.
  destruct call as [s b|max]; simpl.
  - destruct (addSeed_cases s b c)
      as [(_ & _ & H) | [(_ & _ & H) | [(_ & _ & _ & H) | (_ & _ & H)]]];
      rewrite H; try discriminate.
    + by intros [= <-].
    + intros [= <-] Hc.
      by apply (keys_visited_push (mkClusterNode s _ false)).
  - intros [= <-]. apply keys_visited_run.
Qed.

(** A call that returns keeps the overlapper and the minimum overlap and
    only adds to the visited set. *)
Lemma do_call_frame call c c' :
  do_call call c = Returned c' →
  m_usedIndex c ⊆ m_usedIndex c'
  ∧ m_pOverlapper c' = m_pOverlapper c
  ∧ m_minOverlap c' = m_minOverlap c.
Proof.
  destruct call as [s b|max]; simpl.
  - destruct (addSeed_cases s b c)
      as [(_ & _ & H) | [(_ & _ & H) | [(_ & _ & _ & H) | (_ & _ & H)]]];
      rewrite H; try discriminate.
    + by intros [= <-].
    + intros [= <-]. simpl. split; [set_solver | done].
  - intros [= <-]. destruct (run_pushes max c) as [new Hp].
    rewrite (pu_used _ _ _ Hp), (pu_overlapper _ _ _ Hp),
      (pu_minOverlap _ _ _ Hp).
    split; [set_solver | done].
Qed.

(** X6: after any sequence of [addSeed] and [run] calls on a new builder,
    every node waiting in the queue and every node of the accumulated
    output has its key in the visited set. *)
Theorem queued_keys_visited O mo calls c :
  do_calls calls (ReadCluster_new O mo) = Returned c →
  ∀ n, n ∈ m_queue c ++ m_outCluster c → key n ∈ m_usedIndex c.
Proof.
  assert (∀ c0, keys_visited c0 → do_calls calls c0 = Returned c →
                keys_visited c) as Hgen.
  { induction calls as [|call calls IH]; intros c0 H0; simpl.
    - by intros [= <-].
    - destruct (do_call call c0) as [c1|status] eqn:Hcall; [|discriminate].
      apply IH. by eapply do_call_keys_visited. }
  intros Hcalls. apply (Hgen (ReadCluster_new O mo)); [|done].
  intros n Hn. by apply elem_of_nil in Hn.
Qed.

Lemma queued_keys_visited_witness :
  key demo_neighbour ∈ m_usedIndex (run 10 demo_seeded).
Proof.
  apply (queued_keys_visited demo_overlapper 3
           [CallAddSeed "ACGTACGT" true; CallRun 10] (run 10 demo_seeded)).
  - by vm_compute.
  - apply elem_of_app. right. apply (list_elem_of_lookup_2 _ 1). reflexivity.
Defined.

(** X7: no sequence of calls removes a key from the visited set, rebinds
    the overlapper or changes the minimum overlap. *)
Theorem calls_keep_visited calls c c' :
  do_calls calls c = Returned c' →
  m_usedIndex c ⊆ m_usedIndex c'
  ∧ m_pOverlapper c' = m_pOverlapper c
  ∧ m_minOverlap c' = m_minOverlap c.
Proof.
  revert c. induction calls as [|call calls IH]; intros c; simpl.
  - by intros [= <-].
  - destruct (do_call call c) as [c1|status] eqn:Hcall; [|discriminate].
    intros Hrest. destruct (do_call_frame _ _ _ Hcall) as (H1 & H2 & H3).
    destruct (IH _ Hrest) as (I1 & I2 & I3).
    split; [set_solver|]. split; congruence.
Qed.

Lemma calls_keep_visited_witness :
  m_usedIndex demo_seeded ⊆ m_usedIndex (run 1 demo_seeded)
  ∧ m_pOverlapper (run 1 demo_seeded) = m_pOverlapper demo_seeded
  ∧ m_minOverlap (run 1 demo_seeded) = m_minOverlap demo_seeded.
Proof.
  apply (calls_keep_visited [CallRun 1] demo_seeded). reflexivity.
Defined.

(** X8: whenever a sequence of calls ends the process, the exit status is
    1 and the sequence contains an [addSeed] with index membership required
    on a sequence that is reported as a substring or whose narrowed
    interval is empty.  In particular [run], and [addSeed] with index
    membership not required, never end the process. *)
Theorem calls_exit_status calls c status :
  do_calls calls c = Exited status →
  status = 1%Z
  ∧ ∃ s, CallAddSeed s true ∈ calls ∧ fatal_seed (m_pOverlapper c) s = true.
Proof.
  revert c. induction calls as [|call calls IH]; intros c; simpl; [discriminate|].
  destruct (do_call call c) as [c1|status1] eqn:Hcall.
  - intros Hrest. destruct (IH _ Hrest) as (-> & s & Hs & Hfatal).
    split; [done|]. exists s. split; [by apply elem_of_cons; right|].
    destruct (do_call_frame _ _ _ Hcall) as (_ & <- & _). done.
  - intros [= ->]. destruct call as [s b|max]; simpl in Hcall; [|discriminate].
    destruct (addSeed s b c) as [[n c1]|status1] eqn:Hseed; [discriminate|].
    injection Hcall as ->.
    apply addSeed_exit_only_fatal in Hseed as (-> & Hfatal & ->).
    split; [done|]. exists s. split; [by apply elem_of_cons; left | done].
Qed.

Lemma calls_exit_status_witness :
  1%Z = 1%Z
  ∧ ∃ s, CallAddSeed s true
           ∈ [CallAddSeed "ACGTACGT" true; CallRun 10; CallAddSeed "CGTA" true]
         ∧ fatal_seed (m_pOverlapper demo_new) s = true.
Proof.
  apply (calls_exit_status
           [CallAddSeed "ACGTACGT" true; CallRun 10; CallAddSeed "CGTA" true]
           demo_new 1).
  by vm_compute.
Defined.

(** ** Seeding a builder *)

Lemma seed_calls_state seeds c c' :
  do_calls (seed_calls seeds) c = Returned c' →
  m_queue c' = m_queue c ++ seed_nodes (m_pOverlapper c) seeds
  ∧ m_outCluster c' = m_outCluster c
  ∧ m_usedIndex c'
    = m_usedIndex c ∪ list_to_set (key <$> seed_nodes (m_pOverlapper c) seeds).
Proof.
  revert c. induction seeds as [|[s b] seeds IH]; intros c; simpl.
  - intros [= <-]. rewrite app_nil_r. split; [done|]. split; [done|]. set_solver.
  - destruct (addSeed_cases s b c)
      as [(_ & _ & H) | [(Hs & _ & H) | [(_ & _ & _ & H) | (Hs & _ & H)]]];
      rewrite H; try discriminate; rewrite Hs.
    + apply IH.
    + intros Hrest. destruct (IH _ Hrest) as (I1 & I2 & I3). simpl in *.
      split; [by rewrite I1, <- app_assoc|]. split; [done|].
      rewrite I3. unfold key at 3. simpl. set_solver.
Qed.

(** X9: seeding a new builder with a list of sequences, if it returns,
    leaves in the queue one node per sequence that is not reported as a
    substring, in the order of the calls, each carrying its sequence, its
    narrowed interval and forward orientation; the output is still empty
    and the visited set holds exactly the keys of the queued nodes. *)
Theorem seed_calls_queue O mo seeds c :
  do_calls (seed_calls seeds) (ReadCluster_new O mo) = Returned c →
  m_queue c = seed_nodes O seeds
  ∧ m_outCluster c = []
  ∧ m_usedIndex c = list_to_set (key <$> m_queue c).
Proof.
  intros Hseeds. destruct (seed_calls_state _ _ _ Hseeds) as (H1 & H2 & H3).
  simpl in *. rewrite H1. split; [done|]. split; [done|].
  rewrite H3. set_solver.
Qed.

Lemma seed_calls_queue_witness :
  m_queue demo_seeded
  = seed_nodes demo_overlapper [("CGTA"%string, false); ("ACGTACGT"%string, true)]
  ∧ m_outCluster demo_seeded = []
  ∧ m_usedIndex demo_seeded = list_to_set (key <$> m_queue demo_seeded).
Proof.
  apply (seed_calls_queue demo_overlapper 3
           [("CGTA"%string, false); ("ACGTACGT"%string, true)]).
  by vm_compute.
Defined.

(** ** When the final pass drops nothing *)

Lemma unique_after_distinct prev l :
  interval prev ∉ interval <$> l → NoDup (interval <$> l) →
  unique_after prev l = l.
Proof.
  revert prev. induction l as [|y l IH]; intros prev Hprev Hnd; simpl; [done|].
  csimpl in *. apply not_elem_of_cons in Hprev as [Hne Hprev].
  apply NoDup_cons in Hnd as [Hy Hnd].
  destruct (ClusterNode_equal prev y) eqn:He.
  - by apply BWTInterval_equal_eq in He.
  - f_equal. by apply IH.
Qed.

Lemma std_unique_distinct l : NoDup (interval <$> l) → std_unique l = l.
Proof.
  destruct l as [|x l]; simpl; [done|]. csimpl.
  intros Hnd. apply NoDup_cons in Hnd as [Hx Hnd].
  f_equal. by apply unique_after_distinct.
Qed.

Lemma getOutput_distinct c :
  NoDup (interval <$> m_outCluster c) → getOutput c = std_sort (m_outCluster c).
Proof.
  intros Hnd. unfold getOutput. apply std_unique_distinct.
  by rewrite std_sort_Permutation.
Qed.

Lemma NoDup_key_interval (l : list ClusterNode) :
  NoDup (key <$> l) → NoDup (interval <$> l).
Proof.
  intros Hnd. apply (NoDup_fmap_1 lower).
  by rewrite <- list_fmap_compose.
Qed.

(** X10: when the nodes of the accumulated output have pairwise distinct
    intervals, [getOutput] drops none of them: it returns the same nodes,
    rearranged. *)
Theorem getOutput_keeps_distinct c :
  NoDup (interval <$> m_outCluster c) →
  getOutput c ≡ₚ m_outCluster c
  ∧ length (getOutput c) = length (m_outCluster c).
Proof.
  intros Hnd. rewrite (getOutput_distinct c Hnd).
  split; [apply std_sort_Permutation|].
  apply Permutation_length, std_sort_Permutation.
Qed.

Lemma demo_done_distinct : NoDup (interval <$> m_outCluster demo_done).
Proof.
  simpl. constructor.
  - intros Hin. apply list_elem_of_singleton in Hin. discriminate Hin.
  - constructor; [|constructor]. intros Hin. by apply elem_of_nil in Hin.
Defined.

Lemma getOutput_keeps_distinct_witness :
  getOutput demo_done ≡ₚ m_outCluster demo_done
  ∧ length (getOutput demo_done) = length (m_outCluster demo_done).
Proof. apply (getOutput_keeps_distinct demo_done). exact demo_done_distinct. Defined.

Lemma seed_calls_overlapper O mo seeds c :
  do_calls (seed_calls seeds) (ReadCluster_new O mo) = Returned c →
  m_pOverlapper c = O ∧ m_minOverlap c = mo.
Proof.
  revert c. generalize (eq_refl : m_pOverlapper (ReadCluster_new O mo) = O).
  generalize (eq_refl : m_minOverlap (ReadCluster_new O mo) = mo).
  generalize (ReadCluster_new O mo) as c0.
  induction seeds as [|[s b] seeds IH]; intros c0 Hmo HO c; simpl.
  - by intros [= <-].
  - destruct (addSeed_cases s b c0)
      as [(_ & _ & H) | [(_ & _ & H) | [(_ & _ & _ & H) | (_ & _ & H)]]];
      rewrite H; try discriminate.
    + by apply IH.
    + by apply IH.
Qed.

(** The output of a seeded builder whose run went through. *)
Lemma seeded_run_output O mo seeds c max :
  do_calls (seed_calls seeds) (ReadCluster_new O mo) = Returned c →
  run_completes max c →
  ∃ new,
    Trace c (run max c) (m_queue c ++ new) new
    ∧ m_outCluster (run max c) = m_queue c ++ new
    ∧ m_usedIndex (run max c)
      = list_to_set (key <$> m_outCluster (run max c))
    ∧ m_usedIndex c = list_to_set (key <$> m_queue c).
Proof.
  intros Hseeds (k & ck & Hk & Hq). rewrite (run_at_empty _ _ _ _ Hk Hq).
  destruct (seed_calls_state _ _ _ Hseeds) as (S1 & S2 & S3). simpl in *.
  assert (m_usedIndex c = list_to_set (key <$> m_queue c)) as Hused.
  { rewrite S3, S1. set_solver. }
  destruct (turn_start_trace _ _ _ _ Hk) as (expanded & new & Htr & _).
  pose proof (tr_queue _ _ _ _ Htr) as T2. rewrite Hq, app_nil_r in T2.
  subst expanded. pose proof (tr_out _ _ _ _ Htr) as T1.
  rewrite S2 in T1. simpl in T1.
  exists new. split; [done|]. split; [done|]. split; [|done].
  rewrite (pu_used _ _ _ (tr_pushes _ _ _ _ Htr)), Hused, T1.
  by rewrite fmap_app, list_to_set_app_L.
Qed.

(** X11: seed a new builder with sequences whose queued nodes have pairwise
    distinct keys and let [run] go through.  Then the nodes of the
    accumulated output have pairwise distinct keys, and the final pass of
    [getOutput] drops nothing: it returns the same nodes, rearranged. *)
Theorem seeded_run_no_duplicates O mo seeds c max :
  do_calls (seed_calls seeds) (ReadCluster_new O mo) = Returned c →
  NoDup (key <$> m_queue c) →
  run_completes max c →
  NoDup (key <$> m_outCluster (run max c))
  ∧ getOutput (run max c) ≡ₚ m_outCluster (run max c).
Proof.
  intros Hseeds Hnd Hcompl.
  destruct (seeded_run_output _ _ _ _ _ Hseeds Hcompl)
    as (new & Htr & Hout & _ & Hused).
  assert (NoDup (key <$> m_outCluster (run max c))) as Hkeys.
  { rewrite Hout, fmap_app. apply NoDup_app. split; [done|].
    pose proof (tr_pushes _ _ _ _ Htr) as Hp.
    split; [|apply (pu_nodup _ _ _ Hp)].
    intros k Hk1 Hk2. apply list_elem_of_fmap in Hk2 as (n & -> & Hn).
    apply (pu_fresh _ _ _ Hp n Hn). rewrite Hused.
    by apply elem_of_list_to_set. }
  split; [done|].
  rewrite getOutput_distinct by by apply NoDup_key_interval.
  apply std_sort_Permutation.
Qed.

Lemma seeded_run_no_duplicates_witness :
  NoDup (key <$> m_outCluster (run 10 demo_seeded))
  ∧ getOutput (run 10 demo_seeded) ≡ₚ m_outCluster (run 10 demo_seeded).
Proof.
  apply (seeded_run_no_duplicates demo_overlapper 3 [("ACGTACGT"%string, true)]).
  - by vm_compute.
  - simpl. constructor; [|constructor]. intros Hin. by apply elem_of_nil in Hin.
  - exact demo_run_completes.
Defined.

(** X12: seed a new builder and let [run] go through.  Then the output is
    closed under overlaps: for every node of the output, every block the
    overlapper reports for its sequence has the key of some node of the
    output; and the visited set is exactly the set of keys of the output. *)
Theorem seeded_run_closed O mo seeds c max :
  do_calls (seed_calls seeds) (ReadCluster_new O mo) = Returned c →
  run_completes max c →
  m_usedIndex (run max c) = list_to_set (key <$> m_outCluster (run max c))
  ∧ ∀ n b, n ∈ m_outCluster (run max c) →
           b ∈ overlapRead O (mkSeqRecord "cluster"%string (sequence n)) mo →
           ∃ n', n' ∈ m_outCluster (run max c)
                 ∧ key n' = lower (getCanonicalInterval b).
Proof.
  intros Hseeds Hcompl.
  destruct (seeded_run_output _ _ _ _ _ Hseeds Hcompl)
    as (new & Htr & Hout & Hused & _).
  split; [done|]. intros n b Hn Hb.
  destruct (seed_calls_overlapper _ _ _ _ Hseeds) as [HO Hmo].
  assert (lower (getCanonicalInterval b) ∈ m_usedIndex (run max c)) as Hin.
  { apply (tr_closed _ _ _ _ Htr n b); [by rewrite <- Hout|].
    unfold hits_of. by rewrite HO, Hmo. }
  rewrite Hused in Hin. apply elem_of_list_to_set in Hin.
  apply list_elem_of_fmap in Hin as (n' & Hk & Hn'). by exists n'.
Qed.

Lemma seeded_run_closed_witness :
  m_usedIndex (run 10 demo_seeded)
  = list_to_set (key <$> m_outCluster (run 10 demo_seeded))
  ∧ ∀ n b, n ∈ m_outCluster (run 10 demo_seeded) →
           b ∈ overlapRead demo_overlapper
                 (mkSeqRecord "cluster"%string (sequence n)) 3 →
           ∃ n', n' ∈ m_outCluster (run 10 demo_seeded)
                 ∧ key n' = lower (getCanonicalInterval b).
Proof.
  apply (seeded_run_closed demo_overlapper 3 [("ACGTACGT"%string, true)]).
  - by vm_compute.
  - exact demo_run_completes.
Defined.

(** X13: when [addSeed] with index membership required returns, the node
    it returns carries the sequence, a valid interval and forward
    orientation; that node is the new last element of the queue, its key is
    added to the visited set, and the output is untouched. *)
Theorem addSeed_checked_returns s c n c' :
  addSeed s true c = Returned (n, c') →
  sequence n = s
  ∧ isValid (interval n) = true
  ∧ isReverseInterval n = false
  ∧ m_queue c' = m_queue c ++ [n]
  ∧ m_usedIndex c' = {[ key n ]} ∪ m_usedIndex c
  ∧ m_outCluster c' = m_outCluster c.
Proof.
  intros Hseed.
  destruct (addSeed_cases s true c)
    as [(_ & _ & H) | [(_ & Hb & H) | [(_ & _ & _ & H) | (_ & Hv & H)]]];
    rewrite H in Hseed; try discriminate.
  injection Hseed as <- <-. simpl.
  destruct Hv as [Hv|Hv]; [discriminate | done].
Qed.

Lemma addSeed_checked_returns_witness :
  sequence demo_seed = "ACGTACGT"%string
  ∧ isValid (interval demo_seed) = true
  ∧ isReverseInterval demo_seed = false
  ∧ m_queue demo_seeded = m_queue demo_new ++ [demo_seed]
  ∧ m_usedIndex demo_seeded = {[ key demo_seed ]} ∪ m_usedIndex demo_new
  ∧ m_outCluster demo_seeded = m_outCluster demo_new.
Proof.
  apply (addSeed_checked_returns "ACGTACGT" demo_new demo_seed demo_seeded).
  by vm_compute.
Defined.

(** ** The final pass as a normal form *)

Lemma std_sort_sorted_id l : StronglySorted node_lt l → std_sort l = l.
Proof.
  induction 1 as [|x l Hl IH Hx]; simpl; [done|].
  fold (std_sort l). rewrite IH.
  destruct l as [|y l]; simpl; [done|].
  apply Forall_cons in Hx as [Hxy _].
  apply BWTInterval_compare_lt in Hxy. unfold ClusterNode_compare.
  by rewrite Hxy.
Qed.

Lemma getOutput_intervals_sorted c :
  StronglySorted interval_lt (interval <$> getOutput c).
Proof.
  apply (StronglySorted_fmap interval node_lt); [done|].
  apply std_unique_sorted, std_sort_sorted.
Qed.

(** X14: the list [getOutput] returns is a fixed point of the final pass:
    sorting and deduplicating it again returns it unchanged. *)
Theorem getOutput_normal_form c :
  getOutput (with_output (getOutput c) c) = getOutput c.
Proof.
  unfold getOutput at 1. simpl.
  rewrite std_sort_sorted_id by apply std_unique_sorted, std_sort_sorted.
  apply std_unique_distinct, StronglySorted_lt_NoDup,
    getOutput_intervals_sorted.
Qed.

(** X15: the intervals [getOutput] returns depend only on which intervals
    occur in the accumulated output, not on the order in which the nodes
    were moved there nor on how often an interval occurs. *)
Theorem getOutput_order_independent c c' :
  (∀ i, i ∈ interval <$> m_outCluster c ↔ i ∈ interval <$> m_outCluster c') →
  interval <$> getOutput c = interval <$> getOutput c'.
Proof.
  intros Hsame.
  apply (StronglySorted_unique_strong interval_lt);
    try apply getOutput_intervals_sorted.
  - intros x1 x2 _ _ H12 H21. exfalso. apply (interval_lt_irrefl x1).
    eapply interval_lt_le_trans; [exact H12 | by apply interval_lt_le].
  - apply NoDup_Permutation;
      try apply StronglySorted_lt_NoDup, getOutput_intervals_sorted.
    intros i. unfold getOutput.
    rewrite !(unique_sort_intervals std_sort std_sort_Permutation).
    apply Hsame.
Qed.

Lemma getOutput_order_independent_witness :
  interval <$> getOutput demo_done
  = interval <$> getOutput
      (with_output [demo_neighbour; demo_seed; demo_neighbour] demo_done).
Proof.
  apply (getOutput_order_independent demo_done
           (with_output [demo_neighbour; demo_seed; demo_neighbour] demo_done)).
  intros i. simpl. rewrite !elem_of_cons. tauto.
Defined.
